(** * jsonval: the lexer and the bracket validator of jsonval.py

    A shallow embedding of [src/jsonval.py] and the proofs of the properties
    its specification states.

    - Python's [str] is modelled by [string]; a character is its code point,
      restricted to the code points below 256 that [ascii] can hold.
    - [re.match] is modelled by a backtracking matcher ([Re.exec]) over the
      fragment of the regular-expression syntax that the rule table uses,
      with Python's priorities: repetitions are greedy, an alternation tries
      its left branch first.
    - The generator [lex] is modelled by the list of the tokens it yields
      together with the way it ends ([StopIteration] or a raised exception).
      The [while] loop runs on fuel, since nothing in its text bounds the
      number of iterations; that the fuel given by [lex] always suffices is
      a theorem ([lex_loop_enough_fuel], [lex_loop_any_fuel]).

    The file has two parts: the definitions, then the lemmas and the
    theorems. *)

From Stdlib Require Import Bool Arith Lia List String Ascii DecimalString
  DecimalNat Sorted.
Import ListNotations.
Local Open Scope string_scope.

(* ================================================================== *)
(** * Part I: definitions *)
(* ================================================================== *)

(** ** Python strings *)

(** [len(s)] *)
Definition len (s : string) : nat := String.length s.

(** [s[n:]] *)
Fixpoint slice_from (n : nat) (s : string) : string :=
  match n, s with
  | 0, _ => s
  | S _, EmptyString => EmptyString
  | S n', String _ s' => slice_from n' s'
  end.

(** [s[:n]] *)
Fixpoint slice_to (n : nat) (s : string) : string :=
  match n, s with
  | 0, _ => EmptyString
  | S _, EmptyString => EmptyString
  | S n', String c s' => String c (slice_to n' s')
  end.

(** [s[a:b]] *)
Definition slice (a b : nat) (s : string) : string :=
  slice_to (b - a) (slice_from a s).

(** [s.startswith(p)] *)
Definition startswith (s p : string) : bool := String.prefix p s.

(** [s.split(sep)] for a separator of one character. *)
Fixpoint split (sep : ascii) (s : string) : list string :=
  match s with
  | EmptyString => [EmptyString]
  | String c s' =>
      if Ascii.eqb c sep then EmptyString :: split sep s'
      else match split sep s' with
           | [] => [String c EmptyString]
           | w :: ws => String c w :: ws
           end
  end.

(** [str(n)] for a non-negative integer. *)
Definition str_of_nat (n : nat) : string :=
  NilEmpty.string_of_uint (Nat.to_uint n).

(** The join of a list of texts with the empty separator. *)
Definition join (ws : list string) : string := fold_right append "" ws.

(** Two characters that a string literal of this file cannot hold. *)
Definition dquote : ascii := "034"%char.
Definition newline : ascii := "010"%char.

(** The text [s] between two double quotes. *)
Definition quoted (s : string) : string :=
  String dquote (s ++ String dquote EmptyString).

(** [c in s] *)
Fixpoint occurs (c : ascii) (s : string) : bool :=
  match s with
  | EmptyString => false
  | String x s' => Ascii.eqb x c || occurs c s'
  end.

(** [s.count(c)] *)
Fixpoint count_char (c : ascii) (s : string) : nat :=
  match s with
  | EmptyString => 0
  | String x s' => (if Ascii.eqb x c then 1 else 0) + count_char c s'
  end.

(** Whether [s] starts with a character of the set [p]. *)
Definition head_in (p : ascii -> bool) (s : string) : bool :=
  match s with
  | EmptyString => false
  | String x _ => p x
  end.

(** [all(p(c) for c in s)] *)
Fixpoint all_chars (p : ascii -> bool) (s : string) : bool :=
  match s with
  | EmptyString => true
  | String x s' => p x && all_chars p s'
  end.

(** The text before the first newline of [s] (all of [s] when it has
    none). *)
Fixpoint first_line (s : string) : string :=
  match s with
  | EmptyString => EmptyString
  | String x s' =>
      if Ascii.eqb x newline then EmptyString else String x (first_line s')
  end.

(** [s[: s.rindex(c) + 1]]: the text up to the last [c] of [s] (empty when
    [c] is not in [s]). *)
Fixpoint upto_last (c : ascii) (s : string) : string :=
  match s with
  | EmptyString => EmptyString
  | String x s' =>
      if occurs c s' then String x (upto_last c s')
      else if Ascii.eqb x c then String x EmptyString
      else EmptyString
  end.

(* ------------------------------------------------------------------ *)
(** ** Regular expressions, as [re.match] runs them *)

Module Re.

(** A set of characters, as a predicate on the code point. *)
Definition charset : Type := ascii -> bool.

Definition code (c : ascii) : nat := nat_of_ascii c.

(** A literal character. *)
Definition lit (c : ascii) : charset := fun x => Ascii.eqb x c.

(** The dot without the DOTALL flag: any character except the newline. *)
Definition dot : charset := fun x => negb (Ascii.eqb x newline).

(** [\d] on the code points below 256: the decimal digits 0 to 9. *)
Definition digit : charset :=
  fun x => ((48 <=? code x) && (code x <=? 57))%nat.

(** [\s] on the code points below 256, for a [str] pattern:
    TAB LF VT FF CR, FS GS RS US, SPACE, NEL (0x85) and NBSP (0xA0). *)
Definition space : charset :=
  fun x =>
    let n := code x in
    (((9 <=? n) && (n <=? 13)) || ((28 <=? n) && (n <=? 32))
     || (n =? 133) || (n =? 160))%nat.

(** A bracketed set of two members: the union of two sets. *)
Definition union (a b : charset) : charset := fun x => a x || b x.

(** The fragment of the pattern syntax used by the rules of [lex]. A
    repetition applies to a set of characters, which is all that the rule
    table asks for (the dot, the digits and dots, the white space). *)
Inductive regex : Type :=
| One (cs : charset)          (* one character of the set *)
| Star (cs : charset)         (* cs*   greedy *)
| Plus (cs : charset)         (* cs+   greedy *)
| Opt (r : regex)             (* r?    greedy *)
| Cat (r1 r2 : regex)         (* r1 r2 *)
| Alt (r1 r2 : regex)         (* r1|r2 the left branch first *)
| Group (r : regex).          (* ( r ) the capturing group number 1 *)

(** A literal word such as [true]. *)
Fixpoint word (w : string) : regex :=
  match w with
  | EmptyString => Opt (One (fun _ => false))
  | String c EmptyString => One (lit c)
  | String c w' => Cat (One (lit c)) (word w')
  end.

(** A match object: the subject string, the end of the whole match (it
    starts at 0, [re.match] being anchored) and the span of group 1. *)
Record Match : Type := mkMatch {
  subject : string;
  stop : nat;
  span1 : option (nat * nat)
}.

(** [m.group(0)] *)
Definition group0 (m : Match) : string := slice_to (stop m) (subject m).

(** [m.group(1)]; [None] when the group took no part in the match. *)
Definition group1 (m : Match) : option string :=
  match span1 m with
  | Some (a, b) => Some (slice a b (subject m))
  | None => None
  end.

Section Exec.
Context {R : Type}.

(** The continuation of a match: the offset reached, the text that is left
    there and the span captured so far. *)
Definition cont : Type := nat -> string -> option (nat * nat) -> option R.

(** Greedy repetition of a set: take a character when possible and go on;
    when what follows fails, give the character back. *)
Fixpoint star (cs : charset) (i : nat) (s : string)
         (k : nat -> string -> option R) : option R :=
  match s with
  | String c s' =>
      if cs c then
        match star cs (S i) s' k with
        | Some x => Some x
        | None => k i s
        end
      else k i s
  | EmptyString => k i s
  end.

(** [exec r i s g k]: run [r] at offset [i], where the text left is [s] and
    the capture is [g]; every way of matching is tried in the order of
    Python's engine until the continuation [k] accepts one. *)
Fixpoint exec (r : regex) (i : nat) (s : string) (g : option (nat * nat))
         (k : cont) : option R :=
  match r with
  | One cs =>
      match s with
      | String c s' => if cs c then k (S i) s' g else None
      | EmptyString => None
      end
  | Star cs => star cs i s (fun j t => k j t g)
  | Plus cs =>
      match s with
      | String c s' =>
          if cs c then star cs (S i) s' (fun j t => k j t g) else None
      | EmptyString => None
      end
  | Opt r1 =>
      match exec r1 i s g k with
      | Some x => Some x
      | None => k i s g
      end
  | Cat r1 r2 => exec r1 i s g (fun j t h => exec r2 j t h k)
  | Alt r1 r2 =>
      match exec r1 i s g k with
      | Some x => Some x
      | None => exec r2 i s g k
      end
  | Group r1 => exec r1 i s g (fun j t _ => k j t (Some (i, j)))
  end.

End Exec.

(** [re.match(pattern, text)] *)
Definition re_match (r : regex) (text : string) : option Match :=
  exec r 0 text None (fun j _ g => Some (mkMatch text j g)).

(** Whether a pattern can match the empty string. *)
Fixpoint nullable (r : regex) : bool :=
  match r with
  | One _ => false
  | Star _ => true
  | Plus _ => false
  | Opt _ => true
  | Cat r1 r2 => nullable r1 && nullable r2
  | Alt r1 r2 => nullable r1 || nullable r2
  | Group r1 => nullable r1
  end.

(** Whether every match of a pattern goes through its capturing group. *)
Fixpoint captures (r : regex) : bool :=
  match r with
  | One _ | Star _ | Plus _ | Opt _ => false
  | Cat r1 r2 => captures r1 || captures r2
  | Alt r1 r2 => captures r1 && captures r2
  | Group _ => true
  end.

End Re.

Import Re.

(* ------------------------------------------------------------------ *)
(** ** Tokens *)

Record Token : Type := mkToken {
  name : string;
  value : string;
  position : nat
}.

(** The exceptions the program can raise. *)
Inductive exn : Type :=
| ValueError (msg : string)
| IndexError.

(** The result of a call. *)
Inductive outcome (A : Type) : Type :=
| Returns (a : A)
| Raises (e : exn).
Arguments Returns {A} a.
Arguments Raises {A} e.

(** [Token.is_opening] *)
Definition is_opening (self : Token) : bool := startswith (name self) "open".

(** [Token.is_closing] *)
Definition is_closing (self : Token) : bool := startswith (name self) "close".

(** [Token.bracket_type]: the part of the name after the first underscore
    for a bracket, [None] for any other token. *)
Definition bracket_type (self : Token) : outcome (option string) :=
  if is_closing self || is_opening self then
    match nth_error (split "_"%char (name self)) 1 with
    | Some family => Returns (Some family)
    | None => Raises IndexError
    end
  else Returns None.

(* ------------------------------------------------------------------ *)
(** ** The lexer *)

(** The pattern of the [string] rule: a double quote, the group of [.*]
    and a double quote. *)
Definition string_re : regex :=
  Cat (One (lit dquote)) (Cat (Group (Star dot)) (One (lit dquote))).

(** The set [[\d\.]]. *)
Definition digit_or_dot : charset := union digit (lit "."%char).

(** The pattern of the [number] rule: the group of [\-?[\d\.]+]. *)
Definition number_re : regex :=
  Group (Cat (Opt (One (lit "-"%char))) (Plus digit_or_dot)).

(** The rule table of [lex], in its order. *)
Definition rules : list (option string * regex) :=
  [ (Some "string", string_re);
    (Some "boolean", Group (Alt (word "true") (word "false")));
    (Some "assignment", Group (One (lit ":"%char)));
    (Some "open_square", Group (One (lit "["%char)));
    (Some "open_curly", Group (One (lit "{"%char)));
    (Some "close_square", Group (One (lit "]"%char)));
    (Some "close_curly", Group (One (lit "}"%char)));
    (Some "separator", Group (One (lit ","%char)));
    (Some "number", number_re);
    (None, Group (Plus space)) ].

(** The [for rule in rules] loop: the first rule that matches [text], with
    its match; [None] when the loop runs into its [else]. *)
Fixpoint first_rule (rs : list (option string * regex)) (text : string)
  : option (option string * Match) :=
  match rs with
  | [] => None
  | rule :: rs' =>
      match re_match (snd rule) text with
      | Some m => Some (fst rule, m)
      | None => first_rule rs' text
      end
  end.

(** How a generator ends. *)
Inductive ending : Type :=
| StopIteration
| Raised (e : exn).

(** The error of [lex]. *)
Definition unrecognized (position : nat) : exn :=
  ValueError ("Unrecognized token starting at position " ++ str_of_nat position).

(** [Token(rule[0], match.group(1), position)]. Every pattern of the table
    has its group on every path ([first_rule_progress]), so the default is
    never taken. *)
Definition token_of (rule0 : string) (m : Match) (position : nat) : Token :=
  mkToken rule0 (match group1 m with Some v => v | None => "" end) position.

(** What one iteration yields: a token when [rule[0]] is true. *)
Definition yielded (rule0 : option string) (m : Match) (position : nat)
  : list Token :=
  match rule0 with
  | Some n => [token_of n m position]
  | None => []
  end.

(** The [while position < len(src)] loop from the cursor [position]: the
    tokens yielded from there on and the way the generator ends; [None]
    when the fuel runs out first. *)
Fixpoint lex_loop (fuel : nat) (src : string) (position : nat)
  : option (list Token * ending) :=
  match fuel with
  | 0 => None
  | S fuel' =>
      if (position <? len src)%nat then
        match first_rule rules (slice_from position src) with
        | Some (rule0, m) =>
            match lex_loop fuel' src (position + len (group0 m)) with
            | Some (toks, e) => Some ((yielded rule0 m position ++ toks)%list, e)
            | None => None
            end
        | None => Some ([], Raised (unrecognized position))
        end
      else Some ([], StopIteration)
  end.

(** [lex(src)], run to its end. *)
Definition lex (src : string) : option (list Token * ending) :=
  lex_loop (S (len src)) src 0.

(* ------------------------------------------------------------------ *)
(** ** The matches behind the tokens *)

(** What one iteration matched: the name of the rule ([None] for the rule
    of the white space), the match and the cursor it was made at. *)
Record Span : Type := mkSpan {
  rule0 : option string;
  matched : Match;
  start : nat
}.

(** The text a rule match covers. *)
Definition raw (sp : Span) : string := group0 (matched sp).

(** The loop of [lex] again, keeping every match, the discarded ones
    too. *)
Fixpoint scan_loop (fuel : nat) (src : string) (position : nat)
  : option (list Span * ending) :=
  match fuel with
  | 0 => None
  | S fuel' =>
      if (position <? len src)%nat then
        match first_rule rules (slice_from position src) with
        | Some (rule0, m) =>
            match scan_loop fuel' src (position + len (group0 m)) with
            | Some (sps, e) => Some (mkSpan rule0 m position :: sps, e)
            | None => None
            end
        | None => Some ([], Raised (unrecognized position))
        end
      else Some ([], StopIteration)
  end.

Definition scan (src : string) : option (list Span * ending) :=
  scan_loop (S (len src)) src 0.

(** The tokens that a list of matches yields. *)
Definition tokens_of (sps : list Span) : list Token :=
  flat_map (fun sp => yielded (rule0 sp) (matched sp) (start sp)) sps.

(** The matches lie end to end from the cursor [p], each over at least one
    character. *)
Fixpoint contiguous (p : nat) (sps : list Span) : Prop :=
  match sps with
  | [] => True
  | sp :: sps' =>
      start sp = p /\ 0 < len (raw sp) /\ contiguous (p + len (raw sp)) sps'
  end.

(** The states of the loop of [lex]: the cursor is at [p] after the tokens
    [toks] have been yielded. *)
Inductive reaches (src : string) : nat -> list Token -> Prop :=
| reaches_start : reaches src 0 []
| reaches_next (p : nat) (toks : list Token) (r0 : option string) (m : Match) :
    reaches src p toks ->
    p < len src ->
    first_rule rules (slice_from p src) = Some (r0, m) ->
    reaches src (p + len (group0 m)) (toks ++ yielded r0 m p)%list.

(** What follows the repetition in the pattern of the strings: the closing
    quote, then the end of the match; [j] is where group 1 ends. *)
Definition close_quote (text : string) : nat -> string -> option Match :=
  fun j t =>
    exec (One (lit dquote)) j t (Some (1, j))
         (fun j' _ g => Some (mkMatch text j' g)).

(** The end of a match of the number rule on [text]. *)
Definition number_end (text : string) : nat -> string -> option Match :=
  fun j _ => Some (mkMatch text j (Some (0, j))).

(* ------------------------------------------------------------------ *)
(** ** The validator *)

(** [validate(doc)]: the body of the function is its docstring, so a call
    returns [None] at once, whatever the document. *)
Definition validate (doc : string) : outcome unit := Returns tt.

(** The script: [validate(sys.stdin.read())]. *)
Definition main (stdin : string) : outcome unit := validate stdin.

(* ------------------------------------------------------------------ *)
(** ** The validator of the specification *)

(** The algorithm that section 4.2 of the specification gives for the
    validator, over the tokens of [lex]; the source has no code for it. It
    is the reference that [validate] is compared with. *)
Module Spec.

Inductive result : Type :=
| Valid
| NoOpeningTokenFor (t : Token)
| NoClosingTokenFor (t : Token).

(** Two brackets of the same family. *)
Definition same_family (a b : Token) : bool :=
  match bracket_type a, bracket_type b with
  | Returns (Some x), Returns (Some y) => String.eqb x y
  | _, _ => false
  end.

(** The walk over the tokens; the top of the stack is its head. *)
Fixpoint walk (stack tokens : list Token) : result :=
  match tokens with
  | [] =>
      match rev stack with
      | [] => Valid
      | bottom :: _ => NoClosingTokenFor bottom
      end
  | t :: rest =>
      if is_opening t then walk (t :: stack) rest
      else if is_closing t then
        match stack with
        | [] => NoOpeningTokenFor t
        | top :: stack' =>
            if same_family top t then walk stack' rest
            else NoOpeningTokenFor t
        end
      else walk stack rest
  end.

Definition validate (tokens : list Token) : result := walk [] tokens.

(** The validator of the specification on a document: on the tokens of
    [lex] when lexing ends normally. *)
Definition validate_doc (doc : string) : option result :=
  match lex doc with
  | Some (toks, StopIteration) => Some (validate toks)
  | _ => None
  end.

End Spec.

(** Token lists whose brackets are balanced and correctly nested. *)
Inductive balanced : list Token -> Prop :=
| balanced_nil : balanced []
| balanced_other (t : Token) (ts : list Token) :
    is_opening t = false -> is_closing t = false ->
    balanced ts -> balanced (t :: ts)
| balanced_nest (o c : Token) (inner ts : list Token) :
    is_opening o = true -> is_closing c = true ->
    Spec.same_family o c = true ->
    balanced inner -> balanced ts ->
    balanced (o :: inner ++ c :: ts)%list.

(** What is left to close: [closes stack ts] when [ts] closes the openers
    of [stack] in order, the head first, between balanced stretches. *)
Fixpoint closes (stack : list Token) (ts : list Token) : Prop :=
  match stack with
  | [] => balanced ts
  | o :: stack' =>
      exists inner c rest,
        ts = (inner ++ c :: rest)%list /\ balanced inner /\
        is_closing c = true /\ Spec.same_family o c = true /\
        closes stack' rest
  end.

(* ------------------------------------------------------------------ *)
(** ** The documents of the docstrings and of the claims *)

(** The document of the doctest of [lex]: [1, "2"] between square
    brackets. *)
Definition doc_list : string := "[1, " ++ quoted "2" ++ "]".

(** The document of the sixth doctest of [validate]. *)
Definition doc_numbers : string := "{" ++ quoted "numbers" ++ ":[1,2,3]}".

(** The document of the last doctest of [validate]. *)
Definition doc_numbers_bad : string := "[" ++ quoted "numbers" ++ ":{1,2,3]}".

(** Two strings on one line, and on two lines. *)
Definition doc_two_strings : string := quoted "a" ++ " " ++ quoted "b".
Definition doc_two_lines : string := quoted "a" ++ String newline (quoted "b").

(** The tokens of [doc_numbers]. *)
Definition toks_numbers : list Token :=
  [ mkToken "open_curly" "{" 0; mkToken "string" "numbers" 1;
    mkToken "assignment" ":" 10; mkToken "open_square" "[" 11;
    mkToken "number" "1" 12; mkToken "separator" "," 13;
    mkToken "number" "2" 14; mkToken "separator" "," 15;
    mkToken "number" "3" 16; mkToken "close_square" "]" 17;
    mkToken "close_curly" "}" 18 ].

(* ------------------------------------------------------------------ *)
(** ** [Token.__repr__] *)

(** Characters of the escapes of [repr]. *)
Definition squote : ascii := "039"%char.
Definition backslash : ascii := "092"%char.
Definition tab : ascii := "009"%char.
Definition carriage_return : ascii := "013"%char.

(** [c.isprintable()] on the code points below 256: the control
    characters (0 to 31, 127 to 159), the no-break space (160) and the soft
    hyphen (173) are not. *)
Definition printable (c : ascii) : bool :=
  let n := code c in
  (((32 <=? n) && (n <=? 126)) || ((161 <=? n) && negb (n =? 173)))%nat.

(** A hexadecimal digit, in lower case. *)
Definition hex_digit (n : nat) : ascii :=
  match String.get n "0123456789abcdef" with
  | Some c => c
  | None => "0"%char
  end.

(** What [repr] writes for one character of a string that it puts between
    two [quote]s: a backslash before the quote and the backslash, the
    escapes of the tab, the newline and the carriage return, the character
    itself when it is printable, and its code as two hexadecimal digits
    otherwise. *)
Definition escape (quote c : ascii) : string :=
  if Ascii.eqb c quote || Ascii.eqb c backslash then
    String backslash (String c "")
  else if Ascii.eqb c tab then String backslash "t"
  else if Ascii.eqb c newline then String backslash "n"
  else if Ascii.eqb c carriage_return then String backslash "r"
  else if printable c then String c ""
  else String backslash
         (String "x" (String (hex_digit (code c / 16))
                             (String (hex_digit (code c mod 16)) ""))).

Fixpoint escape_all (quote : ascii) (s : string) : string :=
  match s with
  | EmptyString => EmptyString
  | String c s' => escape quote c ++ escape_all quote s'
  end.

(** The quote that [repr] puts around a string: the double quote when the
    string has a single quote and no double quote, the single quote
    otherwise. *)
Definition quote_of (s : string) : ascii :=
  if occurs squote s && negb (occurs dquote s) then dquote else squote.

(** [repr(s)] for a string. *)
Definition repr_str (s : string) : string :=
  String (quote_of s) (escape_all (quote_of s) s ++ String (quote_of s) "").

(** [Token.__repr__]: [str((self.name, self.value, self.position))], the
    [repr] of the tuple. *)
Definition __repr__ (self : Token) : string :=
  "(" ++ repr_str (name self) ++ ", " ++ repr_str (value self)
      ++ ", " ++ str_of_nat (position self) ++ ")".

(** A character that [repr] writes as it is between single quotes. *)
Definition plain (c : ascii) : bool :=
  printable c && negb (Ascii.eqb c squote) && negb (Ascii.eqb c backslash).

(** The value of a hexadecimal digit. *)
Definition hex_value (c : ascii) : nat :=
  let n := code c in
  if (n <? 58)%nat then n - 48 else n - 87.

(** Reading back what [escape] writes: the character that the text starts
    with and the text after it; [None] at a bare quote and at the end. *)
Definition unescape (quote : ascii) (s : string) : option (ascii * string) :=
  match s with
  | EmptyString => None
  | String c rest =>
      if Ascii.eqb c quote then None
      else if Ascii.eqb c backslash then
        match rest with
        | EmptyString => None
        | String d rest' =>
            if Ascii.eqb d "t"%char then Some (tab, rest')
            else if Ascii.eqb d "n"%char then Some (newline, rest')
            else if Ascii.eqb d "r"%char then Some (carriage_return, rest')
            else if Ascii.eqb d "x"%char then
              match rest' with
              | String h (String l rest'') =>
                  Some (ascii_of_nat (16 * hex_value h + hex_value l), rest'')
              | _ => None
              end
            else Some (d, rest')
        end
      else Some (c, rest)
  end.

(* ------------------------------------------------------------------ *)
(** ** What the tokens of [lex] look like *)

(** The text of a number token: digits and dots, at least one, after at
    most one minus sign. *)
Definition number_text (v : string) : bool :=
  match v with
  | EmptyString => false
  | String c b =>
      if Ascii.eqb c "-"%char then negb (b =? "") && all_chars digit_or_dot b
      else all_chars digit_or_dot v
  end.

(** The name of a token and its text fit: one of the nine names of the
    rule table, with a text that its pattern allows. *)
Definition kind_ok (n v : string) : bool :=
  if n =? "string" then negb (occurs newline v)
  else if n =? "boolean" then (v =? "true") || (v =? "false")
  else if n =? "assignment" then v =? ":"
  else if n =? "open_square" then v =? "["
  else if n =? "open_curly" then v =? "{"
  else if n =? "close_square" then v =? "]"
  else if n =? "close_curly" then v =? "}"
  else if n =? "separator" then v =? ","
  else if n =? "number" then number_text v
  else false.

(** The text of the source that a token stands for: its text, between the
    two quotes for a string. *)
Definition covered (t : Token) : string :=
  if name t =? "string" then quoted (value t) else value t.

(** A token moved [n] characters to the right. *)
Definition shift (n : nat) (t : Token) : Token :=
  mkToken (name t) (value t) (n + position t).

(** The white space at the head of a text. *)
Fixpoint leading_space (s : string) : string :=
  match s with
  | EmptyString => EmptyString
  | String c s' => if space c then String c (leading_space s') else EmptyString
  end.

(* ------------------------------------------------------------------ *)
(** ** Documents with balanced brackets *)

(** The bracket characters of a document. *)
Definition opens (c : ascii) : bool := Ascii.eqb c "["%char || Ascii.eqb c "{"%char.
Definition closes_char (c : ascii) : bool := Ascii.eqb c "]"%char || Ascii.eqb c "}"%char.

(** An opening bracket and the closing bracket of its family. *)
Definition pairs (o c : ascii) : bool :=
  (Ascii.eqb o "["%char && Ascii.eqb c "]"%char)
  || (Ascii.eqb o "{"%char && Ascii.eqb c "}"%char).

(** Documents whose square and curly brackets are balanced and correctly
    nested, read off the characters of the document: any character that is
    no bracket may stand anywhere. *)
Inductive balanced_text : string -> Prop :=
| balanced_text_nil : balanced_text ""
| balanced_text_other (c : ascii) (s : string) :
    opens c = false -> closes_char c = false ->
    balanced_text s -> balanced_text (String c s)
| balanced_text_nest (o c : ascii) (inner s : string) :
    pairs o c = true ->
    balanced_text inner -> balanced_text s ->
    balanced_text (String o (inner ++ String c s)).

(** The same, decided with a stack of the brackets that are open. *)
Fixpoint balanced_from (stack : list ascii) (doc : string) : bool :=
  match doc with
  | EmptyString =>
      match stack with
      | [] => true
      | _ :: _ => false
      end
  | String c doc' =>
      if opens c then balanced_from (c :: stack) doc'
      else if closes_char c then
        match stack with
        | [] => false
        | o :: stack' => pairs o c && balanced_from stack' doc'
        end
      else balanced_from stack doc'
  end.

Definition brackets_balanced (doc : string) : bool := balanced_from [] doc.

(** What is left to close, for the characters: [closes_text stack s] when
    [s] closes the brackets of [stack] in order, the head first, between
    balanced stretches. *)
Fixpoint closes_text (stack : list ascii) (s : string) : Prop :=
  match stack with
  | [] => balanced_text s
  | o :: stack' =>
      exists inner c rest,
        s = inner ++ String c rest /\ balanced_text inner /\
        pairs o c = true /\ closes_text stack' rest
  end.

(** A document of the kind that the greedy string rule lexes across:
    [["a", {"b": 1}]]. *)
Definition doc_two_keys : string :=
  "[" ++ quoted "a" ++ ", {" ++ quoted "b" ++ ": 1}]".

(* ================================================================== *)
(** * Part II: lemmas and theorems *)
(* ================================================================== *)

(** ** Facts about strings *)

Lemma len_app (a b : string) : len (a ++ b) = len a + len b.
Proof. induction a as [|c a IH]; simpl; [reflexivity | now rewrite IH]. Qed.

Lemma len_slice_from (n : nat) (s : string) : len (slice_from n s) = len s - n.
Proof.
  revert s; induction n as [|n IH]; intros [|c s]; simpl; try reflexivity.
  apply IH.
Qed.

Lemma len_slice_to (n : nat) (s : string) : len (slice_to n s) = Nat.min n (len s).
Proof.
  revert s; induction n as [|n IH]; intros [|c s]; simpl; try reflexivity.
  now rewrite IH.
Qed.

Lemma slice_to_from (n : nat) (s : string) : slice_to n s ++ slice_from n s = s.
Proof.
  revert s; induction n as [|n IH]; intros [|c s]; simpl; try reflexivity.
  now rewrite IH.
Qed.

Lemma slice_from_add (a b : nat) (s : string) :
  slice_from (a + b) s = slice_from b (slice_from a s).
Proof.
  revert s; induction a as [|a IH]; intros s; simpl; [reflexivity|].
  destruct s as [|c s]; [now destruct b | apply IH].
Qed.

Lemma slice_from_all (n : nat) (s : string) : len s <= n -> slice_from n s = "".
Proof.
  revert s; induction n as [|n IH]; intros [|c s]; simpl; intros H;
    try reflexivity; [lia | apply IH; lia].
Qed.

Lemma slice_to_app (a b : string) : slice_to (len a) (a ++ b) = a.
Proof. induction a as [|c a IH]; simpl; [now destruct b | now rewrite IH]. Qed.

Lemma app_assoc_s (a b c : string) : (a ++ b) ++ c = a ++ (b ++ c).
Proof. induction a as [|x a IH]; simpl; [reflexivity | now rewrite IH]. Qed.

Lemma len_quoted (s : string) : len (quoted s) = S (S (len s)).
Proof.
  unfold quoted. cbn [len String.length]. fold (len (s ++ String dquote "")).
  rewrite len_app. simpl. lia.
Qed.

Lemma quoted_app (body tail : string) :
  quoted body ++ tail = String dquote (body ++ String dquote tail).
Proof. unfold quoted. simpl. now rewrite app_assoc_s. Qed.

Lemma all_chars_not_occurs (cs : charset) (c : ascii) (w : string) :
  (forall x, cs x = true -> Ascii.eqb x c = false) ->
  all_chars cs w = true -> occurs c w = false.
Proof.
  intros Hcs. induction w as [|x w IH]; simpl; [reflexivity|].
  intros H. apply andb_true_iff in H as [Hx Hw].
  now rewrite (Hcs _ Hx), (IH Hw).
Qed.

Lemma all_dot_no_newline (s : string) :
  occurs newline s = false -> all_chars dot s = true.
Proof.
  induction s as [|c s IH]; simpl; [reflexivity|].
  intros H. apply orb_false_iff in H as [Hc Hs].
  unfold dot at 1. rewrite Hc. simpl. auto.
Qed.

Lemma digit_or_dot_not_minus (c : ascii) :
  digit_or_dot c = true -> Ascii.eqb c "-"%char = false.
Proof.
  intros H. destruct (Ascii.eqb c "-"%char) eqn:E; [|reflexivity].
  apply Ascii.eqb_eq in E. subst c. discriminate H.
Qed.

Lemma StronglySorted_lt_le (l : list nat) :
  StronglySorted lt l -> StronglySorted le l.
Proof.
  induction 1 as [|a l Hs IH Hall]; constructor; [exact IH|].
  eapply Forall_impl; [|exact Hall]. simpl. intros; lia.
Qed.

(* ------------------------------------------------------------------ *)
(** ** What a match consumes *)

Section ExecFacts.
Context {R : Type}.

(** A repetition hands to its continuation a suffix of the text, having
    taken characters of its set only. *)
Lemma star_sound (cs : charset) (s : string) :
  forall (i : nat) (k : nat -> string -> option R) (x : R),
    star cs i s k = Some x ->
    exists n, n <= len s /\ all_chars cs (slice_to n s) = true /\
              k (i + n) (slice_from n s) = Some x.
Proof.
  induction s as [|c s IH]; simpl; intros i k x H.
  - exists 0. now rewrite Nat.add_0_r.
  - assert (Hback : k i (String c s) = Some x ->
                    exists n, n <= S (len s) /\
                              all_chars cs (slice_to n (String c s)) = true /\
                              k (i + n) (slice_from n (String c s)) = Some x).
    { intros Hk. exists 0. rewrite Nat.add_0_r. repeat split; [lia | exact Hk]. }
    destruct (cs c) eqn:Hc; [|auto].
    destruct (star cs (S i) s k) as [y|] eqn:E; [|auto].
    injection H as ->.
    destruct (IH _ _ _ E) as (n & Hn & Hall & Hk).
    exists (S n). rewrite Nat.add_succ_r. simpl. rewrite Hc, Hall.
    repeat split; [lia | exact Hk].
Qed.

(** A repetition first tries to go past every character of its set. *)
Lemma star_skip (cs : charset) (body rest : string) :
  forall (i : nat) (k : nat -> string -> option R) (x : R),
    all_chars cs body = true ->
    star cs (i + len body) rest k = Some x ->
    star cs i (body ++ rest) k = Some x.
Proof.
  induction body as [|c body IH]; simpl; intros i k x Hall H.
  - now rewrite Nat.add_0_r in H.
  - apply andb_true_iff in Hall as [-> Hall].
    rewrite (IH (S i) k x Hall); [reflexivity|].
    now rewrite Nat.add_succ_r in H.
Qed.

(** A successful run of a pattern consumes a prefix of the text that is
    left, a non-empty one unless the pattern is nullable, and leaves a
    capture when the pattern [captures]. *)
Lemma exec_sound (r : regex) :
  forall (i : nat) (s : string) (g : option (nat * nat)) (k : @cont R) (x : R),
    exec r i s g k = Some x ->
    exists n g',
      n <= len s /\
      (nullable r = false -> 0 < n) /\
      (captures r = true \/ g <> None -> g' <> None) /\
      k (i + n) (slice_from n s) g' = Some x.
Proof.
  induction r as [cs|cs|cs|r1 IH1|r1 IH1 r2 IH2|r1 IH1 r2 IH2|r1 IH1];
    simpl; intros i s g k x H.
  - destruct s as [|c s]; [discriminate|].
    destruct (cs c); [|discriminate].
    exists 1, g. rewrite Nat.add_1_r. simpl.
    repeat split; [lia | lia | intros [?|?]; [discriminate | assumption] | exact H].
  - destruct (star_sound _ _ _ _ _ H) as (n & Hn & _ & Hk).
    exists n, g. repeat split; try assumption; [discriminate|].
    intros [?|?]; [discriminate | assumption].
  - destruct s as [|c s]; [discriminate|].
    destruct (cs c); [|discriminate].
    destruct (star_sound _ _ _ _ _ H) as (n & Hn & _ & Hk).
    exists (S n), g. rewrite Nat.add_succ_r. simpl.
    repeat split; [lia | lia | intros [?|?]; [discriminate | assumption] | exact Hk].
  - destruct (exec r1 i s g k) as [y|] eqn:E.
    + injection H as ->.
      destruct (IH1 _ _ _ _ _ E) as (n & g' & Hn & _ & Hg & Hk).
      exists n, g'. repeat split; try assumption; [discriminate|].
      intros [?|?]; [discriminate | auto].
    + exists 0, g. rewrite Nat.add_0_r.
      repeat split; [lia | discriminate | intros [?|?]; [discriminate | assumption] | exact H].
  - destruct (IH1 _ _ _ _ _ H) as (n1 & g1 & Hn1 & Hz1 & Hg1 & Hk1).
    destruct (IH2 _ _ _ _ _ Hk1) as (n2 & g2 & Hn2 & Hz2 & Hg2 & Hk2).
    rewrite len_slice_from in Hn2.
    exists (n1 + n2), g2. rewrite slice_from_add, Nat.add_assoc.
    repeat split; [lia | | | exact Hk2].
    + intros Hnull. apply andb_false_iff in Hnull as [Hnull|Hnull];
        [specialize (Hz1 Hnull) | specialize (Hz2 Hnull)]; lia.
    + intros [Hc|Hg]; [apply orb_true_iff in Hc as [Hc|Hc]|]; auto.
  - destruct (exec r1 i s g k) as [y|] eqn:E.
    + injection H as ->.
      destruct (IH1 _ _ _ _ _ E) as (n & g' & Hn & Hz & Hg & Hk).
      exists n, g'. repeat split; try assumption.
      * intros Hnull. apply orb_false_iff in Hnull as [Hnull _]. auto.
      * intros [Hc|Hg']; [apply andb_true_iff in Hc as [Hc _]|]; auto.
    + destruct (IH2 _ _ _ _ _ H) as (n & g' & Hn & Hz & Hg & Hk).
      exists n, g'. repeat split; try assumption.
      * intros Hnull. apply orb_false_iff in Hnull as [_ Hnull]. auto.
      * intros [Hc|Hg']; [apply andb_true_iff in Hc as [_ Hc]|]; auto.
  - destruct (IH1 _ _ _ _ _ H) as (n & g' & Hn & Hz & _ & Hk).
    exists n, (Some (i, i + n)). repeat split; try assumption. discriminate.
Qed.

End ExecFacts.

(** What [re.match] returns is a match on the text it was given, over a
    prefix of it. *)
Lemma re_match_sound (r : regex) (text : string) (m : Match) :
  re_match r text = Some m ->
  subject m = text /\ stop m <= len text /\
  (nullable r = false -> 0 < stop m) /\
  (captures r = true -> span1 m <> None).
Proof.
  unfold re_match. intros H.
  destruct (exec_sound _ _ _ _ _ _ H) as (n & g' & Hn & Hz & Hg & Hk).
  injection Hk as <-. simpl. repeat split; auto.
Qed.

Lemma len_group0 (r : regex) (text : string) (m : Match) :
  re_match r text = Some m -> len (group0 m) = stop m.
Proof.
  intros H. destruct (re_match_sound _ _ _ H) as (Hs & Hn & _).
  unfold group0. rewrite len_slice_to, Hs. lia.
Qed.

(* ------------------------------------------------------------------ *)
(** ** The rule table *)

(** No pattern of the table matches the empty string, and every one has
    its capturing group on every path. *)
Lemma rules_shape :
  forallb (fun rule => negb (nullable (snd rule)) && captures (snd rule)) rules = true.
Proof. reflexivity. Qed.

Lemma first_rule_In (rs : list (option string * regex)) (text : string)
      (r0 : option string) (m : Match) :
  first_rule rs text = Some (r0, m) ->
  exists r, In (r0, r) rs /\ re_match r text = Some m.
Proof.
  induction rs as [|[n r] rs IH]; simpl; [discriminate|].
  destruct (re_match r text) as [m'|] eqn:E.
  - intros [= <- <-]. exists r. auto.
  - intros H. destruct (IH H) as (r' & Hin & Hm). exists r'. auto.
Qed.

(** The match of the rule that wins is over a non-empty prefix of the text
    and has its group 1. *)
Lemma first_rule_progress (text : string) (r0 : option string) (m : Match) :
  first_rule rules text = Some (r0, m) ->
  subject m = text /\ len (group0 m) = stop m /\
  0 < stop m <= len text /\ span1 m <> None.
Proof.
  intros H. destruct (first_rule_In _ _ _ _ H) as (r & Hin & Hm).
  pose proof rules_shape as Hshape. rewrite forallb_forall in Hshape.
  specialize (Hshape _ Hin). simpl in Hshape.
  apply andb_true_iff in Hshape as [Hnull Hcap].
  apply negb_true_iff in Hnull.
  destruct (re_match_sound _ _ _ Hm) as (Hs & Hn & Hz & Hg).
  rewrite (len_group0 _ _ _ Hm). repeat split; auto.
Qed.

(** The text of a token is the group 1 of its match. *)
Lemma token_of_group1 (text : string) (n : string) (m : Match) (p : nat) :
  first_rule rules text = Some (Some n, m) ->
  exists v, group1 m = Some v /\ token_of n m p = mkToken n v p.
Proof.
  intros H. destruct (first_rule_progress _ _ _ H) as (_ & _ & _ & Hg).
  unfold token_of, group1. destruct (span1 m) as [[a b]|]; [eauto | congruence].
Qed.

(* ------------------------------------------------------------------ *)
(** ** The loop and its fuel *)

(** With more iterations allowed than characters left, the loop ends. *)
Lemma lex_loop_enough_fuel (src : string) :
  forall (fuel p : nat),
    len src - p < fuel ->
    exists r, lex_loop fuel src p = Some r.
Proof.
  induction fuel as [|fuel IH]; intros p Hfuel; [lia|].
  cbn [lex_loop]. destruct (p <? len src)%nat eqn:Hlt; [|eauto].
  apply Nat.ltb_lt in Hlt.
  destruct (first_rule rules (slice_from p src)) as [[r0 m]|] eqn:E; [|eauto].
  destruct (first_rule_progress _ _ _ E) as (_ & -> & Hz & _).
  destruct (IH (p + stop m)) as ((toks & e) & ->); [lia | eauto].
Qed.

(** More fuel does not change the result. *)
Lemma lex_loop_fuel_mono (src : string) :
  forall (fuel fuel' p : nat) r,
    lex_loop fuel src p = Some r ->
    fuel <= fuel' ->
    lex_loop fuel' src p = Some r.
Proof.
  induction fuel as [|fuel IH]; intros fuel' p r H Hle; [discriminate|].
  destruct fuel' as [|fuel']; [lia|].
  cbn [lex_loop] in *. destruct (p <? len src)%nat; [|exact H].
  destruct (first_rule rules (slice_from p src)) as [[r0 m]|]; [|exact H].
  destruct (lex_loop fuel src (p + len (group0 m))) as [[toks e]|] eqn:E;
    [|discriminate].
  rewrite (IH fuel' _ _ E); [exact H | lia].
Qed.

(** The result of the loop is that of [lex]'s own fuel as soon as the fuel
    exceeds the number of characters left. *)
Lemma lex_loop_any_fuel (src : string) (fuel p : nat) :
  len src - p < fuel ->
  lex_loop fuel src p = lex_loop (S (len src)) src p.
Proof.
  intros Hfuel.
  destruct (lex_loop_enough_fuel src fuel p Hfuel) as (r & Hr).
  destruct (lex_loop_enough_fuel src (S (len src)) p) as (r' & Hr'); [lia|].
  destruct (Nat.le_ge_cases fuel (S (len src))) as [Hle|Hle].
  - rewrite Hr. symmetry. now apply (lex_loop_fuel_mono _ _ _ _ _ Hr).
  - rewrite Hr'. now apply (lex_loop_fuel_mono _ _ _ _ _ Hr').
Qed.

(** The equation of the loop, free of fuel: from a cursor inside the text
    where a rule matches, [lex] goes on from the end of the match. *)
Lemma lex_loop_step (src : string) (p : nat) (r0 : option string) (m : Match) :
  p < len src ->
  first_rule rules (slice_from p src) = Some (r0, m) ->
  exists toks e,
    lex_loop (S (len src)) src (p + len (group0 m)) = Some (toks, e) /\
    lex_loop (S (len src)) src p = Some ((yielded r0 m p ++ toks)%list, e).
Proof.
  intros Hlt E.
  destruct (first_rule_progress _ _ _ E) as (_ & Hlen & Hz & _).
  destruct (lex_loop_enough_fuel src (S (len src)) (p + len (group0 m)))
    as ((toks & e) & Hrun); [lia|].
  exists toks, e. split; [exact Hrun|].
  cbn [lex_loop]. rewrite (proj2 (Nat.ltb_lt _ _) Hlt), E.
  rewrite (lex_loop_any_fuel src (len src)), Hrun; [reflexivity | lia].
Qed.

(** From a state that the loop reaches, [lex] does what the loop does from
    there. *)
Lemma reaches_lex (src : string) (p : nat) (toks : list Token) :
  reaches src p toks ->
  forall (toks' : list Token) (e : ending),
    lex_loop (S (len src)) src p = Some (toks', e) ->
    lex src = Some ((toks ++ toks')%list, e).
Proof.
  induction 1 as [|p toks r0 m Hreach IH Hlt E]; intros toks' e Hrun.
  - exact Hrun.
  - destruct (lex_loop_step src p r0 m Hlt E) as (toks1 & e1 & H1 & H2).
    rewrite Hrun in H1. injection H1 as <- <-.
    rewrite <- app_assoc. now apply IH.
Qed.

(** Where no rule matches, the loop raises at once. *)
Lemma lex_raises_at (src : string) (p : nat) (toks : list Token) :
  reaches src p toks ->
  p < len src ->
  first_rule rules (slice_from p src) = None ->
  lex src = Some (toks, Raised (unrecognized p)).
Proof.
  intros Hreach Hlt Hnone.
  rewrite <- (app_nil_r toks) at 1.
  apply (reaches_lex _ _ _ Hreach).
  cbn [lex_loop]. apply Nat.ltb_lt in Hlt. now rewrite Hlt, Hnone.
Qed.

(* ------------------------------------------------------------------ *)
(** ** The matches behind the tokens *)

(** [lex] yields the tokens of the matches that [scan] keeps. *)
Lemma lex_loop_scan (src : string) :
  forall (fuel p : nat),
    lex_loop fuel src p =
    match scan_loop fuel src p with
    | Some (sps, e) => Some (tokens_of sps, e)
    | None => None
    end.
Proof.
  induction fuel as [|fuel IH]; intros p; cbn [lex_loop scan_loop]; [reflexivity|].
  destruct (p <? len src)%nat; [|reflexivity].
  destruct (first_rule rules (slice_from p src)) as [[n m]|]; [|reflexivity].
  rewrite IH.
  destruct (scan_loop fuel src (p + len (group0 m))) as [[sps e]|];
    reflexivity.
Qed.

(** The matches of a run that ends normally cover the text from the cursor
    on, end to end. *)
Lemma scan_loop_covers (src : string) :
  forall (fuel p : nat) (sps : list Span),
    scan_loop fuel src p = Some (sps, StopIteration) ->
    join (map raw sps) = slice_from p src /\ contiguous p sps.
Proof.
  induction fuel as [|fuel IH]; intros p sps; cbn [scan_loop]; [discriminate|].
  destruct (p <? len src)%nat eqn:Hlt.
  - destruct (first_rule rules (slice_from p src)) as [[n m]|] eqn:E;
      [|discriminate].
    destruct (scan_loop fuel src (p + len (group0 m))) as [[sps' e]|] eqn:Hrun;
      [|discriminate].
    intros [= <- ->].
    destruct (IH _ _ Hrun) as (Hjoin & Hcont).
    destruct (first_rule_progress _ _ _ E) as (Hsub & Hlen & Hz & _).
    simpl. unfold raw at 1 3 4. simpl. split; [|repeat split; [lia | exact Hcont]].
    rewrite Hjoin, slice_from_add. unfold group0 at 1. rewrite Hsub.
    rewrite Hlen. apply slice_to_from.
  - intros [= <-]. apply Nat.ltb_ge in Hlt. simpl.
    split; [|exact I]. symmetry. now apply slice_from_all.
Qed.

(** The tokens come out in the order of the text, from the cursor on. *)
Lemma lex_loop_positions (src : string) :
  forall (fuel p : nat) (toks : list Token) (e : ending),
    lex_loop fuel src p = Some (toks, e) ->
    Forall (fun q => p <= q) (map position toks) /\
    StronglySorted lt (map position toks).
Proof.
  induction fuel as [|fuel IH]; intros p toks e; cbn [lex_loop]; [discriminate|].
  destruct (p <? len src)%nat.
  - destruct (first_rule rules (slice_from p src)) as [[n m]|] eqn:E.
    + destruct (lex_loop fuel src (p + len (group0 m))) as [[toks' e']|] eqn:Hrun;
        [|discriminate].
      intros [= <- <-].
      destruct (IH _ _ _ Hrun) as (Hge & Hsorted).
      destruct (first_rule_progress _ _ _ E) as (_ & Hlen & Hz & _).
      assert (Hge' : Forall (fun q => p < q) (map position toks')).
      { eapply Forall_impl; [|exact Hge]. simpl. intros; lia. }
      destruct n as [n|]; simpl.
      * split; constructor; auto.
        eapply Forall_impl; [|exact Hge']. simpl. intros; lia.
      * split; [|exact Hsorted].
        eapply Forall_impl; [|exact Hge']. simpl. intros; lia.
    + intros [= <- <-]. simpl. split; constructor.
  - intros [= <- <-]. simpl. split; constructor.
Qed.

(* ------------------------------------------------------------------ *)
(** ** The string rule *)

Lemma string_re_unfold (c : ascii) (s : string) :
  re_match string_re (String c s) =
  if lit dquote c then star dot 1 s (close_quote (String c s)) else None.
Proof. reflexivity. Qed.

(** Past the last quote of a line, the repetition finds no place where the
    closing quote matches. *)
Lemma star_no_quote (text t : string) :
  forall j : nat,
    occurs dquote (first_line t) = false ->
    star dot j t (close_quote text) = None.
Proof.
  induction t as [|c t IH]; intros j; [reflexivity|].
  cbn [first_line star]. unfold dot at 1.
  destruct (Ascii.eqb c newline) eqn:Hnl; cbn [negb].
  - intros _. apply Ascii.eqb_eq in Hnl. subst c. reflexivity.
  - cbn [occurs]. intros H. apply orb_false_iff in H as [Hq Hrest].
    rewrite (IH _ Hrest). unfold close_quote. cbn [exec]. unfold lit.
    now rewrite Hq.
Qed.

(** The match of the string rule on a text that starts with a quote: group 1
    runs up to the last quote of the first line. *)
Lemma string_re_match (body tail : string) :
  occurs newline body = false ->
  occurs dquote (first_line tail) = false ->
  re_match string_re (quoted body ++ tail) =
    Some (mkMatch (quoted body ++ tail) (S (S (len body))) (Some (1, S (len body)))).
Proof.
  intros Hbody Htail.
  rewrite quoted_app at 1. rewrite string_re_unfold.
  change (lit dquote dquote) with true. cbn iota.
  apply star_skip; [now apply all_dot_no_newline|].
  cbn [star]. change (dot dquote) with true. cbn iota.
  rewrite star_no_quote by assumption.
  unfold close_quote. cbn [exec]. change (lit dquote dquote) with true. cbn iota.
  now rewrite <- quoted_app.
Qed.

(* ------------------------------------------------------------------ *)
(** ** The number rule *)

Section NumberRule.
Variable text : string.

Lemma number_re_unfold :
  re_match number_re text =
  match exec (One (lit "-"%char)) 0 text None
             (fun j t _ => exec (Plus digit_or_dot) j t None
                                (fun j' t' _ => number_end text j' t')) with
  | Some x => Some x
  | None => exec (Plus digit_or_dot) 0 text None (fun j' t' _ => number_end text j' t')
  end.
Proof. reflexivity. Qed.

(** The repetition of the number rule goes as far as the characters of its
    set go. *)
Lemma star_number (body rest : string) (i : nat) :
  all_chars digit_or_dot body = true ->
  head_in digit_or_dot rest = false ->
  star digit_or_dot i (body ++ rest) (number_end text)
  = number_end text (i + len body) rest.
Proof.
  intros Hbody Hrest. apply star_skip; [exact Hbody|].
  destruct rest as [|c rest]; cbn [star]; [reflexivity|].
  cbn [head_in] in Hrest. now rewrite Hrest.
Qed.

(** What the repetition of the number rule hands to the end of the
    match. *)
Lemma plus_number (t : string) (i : nat) (m : Match) :
  exec (Plus digit_or_dot) i t None (fun j' t' _ => number_end text j' t') = Some m ->
  exists n, all_chars digit_or_dot (slice_to n t) = true /\ 0 < n <= len t /\
            m = mkMatch text (i + n) (Some (0, i + n)).
Proof.
  cbn [exec]. destruct t as [|d t]; [discriminate|].
  destruct (digit_or_dot d) eqn:Hd; [|discriminate].
  intros H. destruct (star_sound _ _ _ _ _ H) as (n & Hn & Hall & Hk).
  exists (S n). cbn [slice_to all_chars]. rewrite Hd, Hall.
  injection Hk as <-. rewrite Nat.add_succ_r. simpl. repeat split; lia.
Qed.

End NumberRule.

(** The match of the number rule on digits and dots. *)
Lemma number_re_match_plain (body rest : string) :
  0 < len body ->
  all_chars digit_or_dot body = true ->
  head_in digit_or_dot rest = false ->
  re_match number_re (body ++ rest) =
    Some (mkMatch (body ++ rest) (len body) (Some (0, len body))).
Proof.
  intros Hne Hbody Hrest. rewrite number_re_unfold.
  destruct body as [|d body]; [simpl in Hne; lia|].
  cbn [all_chars] in Hbody. apply andb_true_iff in Hbody as [Hd Hbody].
  cbn [append exec]. unfold lit at 1.
  rewrite (digit_or_dot_not_minus _ Hd), Hd.
  change (fun (j : nat) (t : string) => number_end (String d (body ++ rest)) j t)
    with (number_end (String d (body ++ rest))).
  now rewrite star_number.
Qed.

(** The match of the number rule on a minus sign, then digits and dots. *)
Lemma number_re_match_minus (body rest : string) :
  0 < len body ->
  all_chars digit_or_dot body = true ->
  head_in digit_or_dot rest = false ->
  re_match number_re ("-" ++ body ++ rest) =
    Some (mkMatch ("-" ++ body ++ rest) (S (len body)) (Some (0, S (len body)))).
Proof.
  intros Hne Hbody Hrest. rewrite number_re_unfold.
  destruct body as [|d body]; [simpl in Hne; lia|].
  cbn [all_chars] in Hbody. apply andb_true_iff in Hbody as [Hd Hbody].
  cbn [append exec]. change (lit "-"%char "-"%char) with true. cbn iota.
  rewrite Hd.
  change (fun (j : nat) (t : string) => number_end (String "-" (String d (body ++ rest))) j t)
    with (number_end (String "-" (String d (body ++ rest)))).
  now rewrite star_number.
Qed.

(** A match of the number rule has no minus sign after its first
    character. *)
Lemma number_re_no_inner_minus (text : string) (m : Match) :
  re_match number_re text = Some m ->
  occurs "-"%char (slice_from 1 (group0 m)) = false.
Proof.
  rewrite number_re_unfold.
  destruct (exec (One (lit "-"%char)) 0 text None _) as [x|] eqn:E1.
  - intros [= ->]. cbn [exec] in E1.
    destruct text as [|c s]; [discriminate|].
    destruct (lit "-"%char c); [|discriminate].
    apply plus_number in E1 as (n & Hall & Hn & ->).
    unfold group0. cbn [stop subject Nat.add slice_to slice_from].
    now apply (all_chars_not_occurs _ _ _ digit_or_dot_not_minus).
  - intros H. apply plus_number in H as (n & Hall & Hn & ->).
    unfold group0. cbn [stop subject Nat.add].
    apply (all_chars_not_occurs _ _ _ digit_or_dot_not_minus) in Hall.
    destruct n as [|n]; [lia|].
    destruct text as [|c s]; [reflexivity|].
    cbn [slice_to slice_from occurs] in *.
    now apply orb_false_iff in Hall as [_ Hall].
Qed.

(* ------------------------------------------------------------------ *)
(** ** Balanced token lists and the validator of the specification *)

Lemma closing_not_opening (t : Token) :
  is_closing t = true -> is_opening t = false.
Proof.
  unfold is_closing, is_opening, startswith.
  destruct (name t) as [|c n]; cbn [String.prefix]; [discriminate|].
  destruct (ascii_dec "c" c) as [<-|]; [intros _; reflexivity | discriminate].
Qed.

(** The walk of the specification goes through a balanced list with its
    stack unchanged. *)
Lemma walk_balanced (ts : list Token) :
  balanced ts ->
  forall stack rest : list Token,
    Spec.walk stack (ts ++ rest)%list = Spec.walk stack rest.
Proof.
  induction 1 as [|t ts Ho Hc Hts IH|o c inner ts Ho Hc Hfam Hin IHin Hts IHts];
    intros stack rest.
  - reflexivity.
  - cbn [app Spec.walk]. now rewrite Ho, Hc.
  - cbn [app Spec.walk]. rewrite Ho, <- app_assoc, IHin.
    cbn [app Spec.walk]. now rewrite (closing_not_opening _ Hc), Hc, Hfam.
Qed.

(** The validator of the specification accepts the balanced lists. *)
Lemma spec_validate_balanced (ts : list Token) :
  balanced ts -> Spec.validate ts = Spec.Valid.
Proof.
  intros H. unfold Spec.validate.
  rewrite <- (app_nil_r ts). now rewrite walk_balanced.
Qed.

Lemma balanced_app (a b : list Token) :
  balanced a -> balanced b -> balanced (a ++ b)%list.
Proof.
  induction 1 as [|t ts Ho Hc Hts IH|o c inner ts Ho Hc Hfam Hin IHin Hts IHts];
    intros Hb.
  - exact Hb.
  - cbn [app]. apply balanced_other; auto.
  - cbn [app]. rewrite <- app_assoc. cbn [app].
    apply balanced_nest; auto.
Qed.

(** A balanced stretch before what closes a stack. *)
Lemma closes_prefix (stack pre ts : list Token) :
  balanced pre -> closes stack ts -> closes stack (pre ++ ts)%list.
Proof.
  intros Hpre. destruct stack as [|o stack]; cbn [closes].
  - now apply balanced_app.
  - intros (inner & c & rest & -> & Hin & Hc & Hfam & Hrest).
    exists (pre ++ inner)%list, c, rest. rewrite <- app_assoc.
    repeat split; auto. now apply balanced_app.
Qed.

(** What the walk of the specification accepts closes its stack. *)
Lemma walk_valid_closes (ts : list Token) :
  forall stack : list Token,
    Spec.walk stack ts = Spec.Valid -> closes stack ts.
Proof.
  induction ts as [|t ts IH]; intros stack; cbn [Spec.walk].
  - destruct stack as [|o stack]; [intros _; constructor|].
    cbn [rev]. destruct (rev stack ++ [o])%list as [|b l] eqn:E; [|discriminate].
    now apply app_eq_nil in E as [_ E].
  - destruct (is_opening t) eqn:Ho.
    + intros H. apply IH in H. cbn [closes] in H.
      destruct H as (inner & c & rest & -> & Hin & Hc & Hfam & Hrest).
      replace (t :: inner ++ c :: rest)%list
        with ((t :: inner ++ [c]) ++ rest)%list
        by (cbn [app]; now rewrite <- app_assoc).
      apply closes_prefix; [|exact Hrest].
      apply balanced_nest; auto. constructor.
    + destruct (is_closing t) eqn:Hc.
      * destruct stack as [|top stack]; [discriminate|].
        destruct (Spec.same_family top t) eqn:Hfam; [|discriminate].
        intros H. apply IH in H. cbn [closes].
        exists [], t, ts. repeat split; auto. constructor.
      * intros H. apply IH in H.
        change (t :: ts) with ([t] ++ ts)%list.
        apply closes_prefix; [|exact H].
        apply balanced_other; auto. constructor.
Qed.

(** The validator of the specification accepts the balanced lists and no
    other. *)
Lemma spec_validate_iff_balanced (ts : list Token) :
  Spec.validate ts = Spec.Valid <-> balanced ts.
Proof.
  split; [apply (walk_valid_closes ts []) | apply spec_validate_balanced].
Qed.

(* ================================================================== *)
(** * The lexer: theorems *)

(** C5: [lex] on the document [[1, "2"]] yields exactly the five tokens
    (open_square, "[", 0), (number, "1", 1), (separator, ",", 2),
    (string, "2", 4), (close_square, "]", 7) and ends normally. The matches
    behind them show that the white space at position 3 is matched and
    yields nothing, and that the string token, whose text is [2], comes from
    a match of the three characters that start at the opening quote. *)
Theorem lex_list_doctest :
  lex doc_list =
    Some ([ mkToken "open_square" "[" 0; mkToken "number" "1" 1;
            mkToken "separator" "," 2; mkToken "string" "2" 4;
            mkToken "close_square" "]" 7 ], StopIteration)
  /\ option_map (fun r => map (fun sp => (rule0 sp, raw sp, start sp)) (fst r))
                (scan doc_list) =
     Some [ (Some "open_square", "[", 0); (Some "number", "1", 1);
            (Some "separator", ",", 2); (None, " ", 3);
            (Some "string", quoted "2", 4); (Some "close_square", "]", 7) ].
Proof. split; vm_compute; reflexivity. Qed.

(** C6: when the loop of [lex] is at a cursor [p] inside the source and no
    rule matches the text that starts there, [lex] ends at once by raising
    the ValueError "Unrecognized token starting at position p": it has
    yielded the tokens of the matches made before [p] and nothing else, and
    no character is skipped. So [lex] on [[1, --2]] raises that error for
    position 4, after the tokens of [[], [1] and [,]. *)
Theorem lex_unrecognized :
  (forall (src : string) (p : nat) (toks : list Token),
      reaches src p toks ->
      p < len src ->
      first_rule rules (slice_from p src) = None ->
      lex src =
        Some (toks, Raised (ValueError ("Unrecognized token starting at position "
                                          ++ str_of_nat p))))
  /\ lex "[1, --2]" =
       Some ([ mkToken "open_square" "[" 0; mkToken "number" "1" 1;
               mkToken "separator" "," 2 ],
             Raised (ValueError "Unrecognized token starting at position 4")).
Proof. split; [exact lex_raises_at | vm_compute; reflexivity]. Qed.

Lemma lex_unrecognized_witness :
  reaches "[1, --2]" 4
          [ mkToken "open_square" "[" 0; mkToken "number" "1" 1;
            mkToken "separator" "," 2 ]
  /\ 4 < len "[1, --2]"
  /\ first_rule rules (slice_from 4 "[1, --2]") = None
  /\ lex "[1, --2]" =
       Some ([ mkToken "open_square" "[" 0; mkToken "number" "1" 1;
               mkToken "separator" "," 2 ],
             Raised (ValueError "Unrecognized token starting at position 4")).
Proof.
  assert (Hreach : reaches "[1, --2]" 4
                     [ mkToken "open_square" "[" 0; mkToken "number" "1" 1;
                       mkToken "separator" "," 2 ]).
  { pose proof (reaches_start "[1, --2]") as H.
    do 4 (eapply reaches_next in H; [| simpl; lia | vm_compute; reflexivity];
          vm_compute in H).
    exact H. }
  assert (Hlt : 4 < len "[1, --2]") by (simpl; lia).
  assert (Hnone : first_rule rules (slice_from 4 "[1, --2]") = None)
    by (vm_compute; reflexivity).
  split; [exact Hreach|]. split; [exact Hlt|]. split; [exact Hnone|].
  exact (proj1 lex_unrecognized "[1, --2]" 4 _ Hreach Hlt Hnone).
Defined.

(** C7: when [lex] ends without an error, the positions of its tokens never
    decrease, and the matches of the rules, those of the white space
    included, lie end to end from position 0 (no gap, no overlap), each
    over at least one character, and their texts joined in order give back
    the source; the tokens are those of the matches with a rule name. *)
Theorem lex_covers_source (src : string) (toks : list Token) :
  lex src = Some (toks, StopIteration) ->
  StronglySorted le (map position toks)
  /\ exists sps,
       scan src = Some (sps, StopIteration)
       /\ toks = tokens_of sps
       /\ contiguous 0 sps
       /\ join (map raw sps) = src.
Proof.
  intros Hlex. split.
  - apply StronglySorted_lt_le.
    exact (proj2 (lex_loop_positions _ _ _ _ _ Hlex)).
  - unfold lex in Hlex. rewrite lex_loop_scan in Hlex. unfold scan.
    destruct (scan_loop (S (len src)) src 0) as [[sps e]|] eqn:Hscan; [|discriminate].
    injection Hlex as <- ->.
    destruct (scan_loop_covers _ _ _ _ Hscan) as (Hjoin & Hcont).
    exists sps. auto.
Qed.

Lemma lex_covers_source_witness :
  lex doc_list =
    Some ([ mkToken "open_square" "[" 0; mkToken "number" "1" 1;
            mkToken "separator" "," 2; mkToken "string" "2" 4;
            mkToken "close_square" "]" 7 ], StopIteration)
  /\ StronglySorted le [0; 1; 2; 4; 7]
  /\ exists sps,
       scan doc_list = Some (sps, StopIteration)
       /\ contiguous 0 sps
       /\ join (map raw sps) = doc_list.
Proof.
  assert (Hlex : lex doc_list =
            Some ([ mkToken "open_square" "[" 0; mkToken "number" "1" 1;
                    mkToken "separator" "," 2; mkToken "string" "2" 4;
                    mkToken "close_square" "]" 7 ], StopIteration))
    by (vm_compute; reflexivity).
  split; [exact Hlex|].
  destruct (lex_covers_source doc_list _ Hlex) as (Hsorted & sps & Hscan & _ & Hcont & Hjoin).
  split; [exact Hsorted|]. exists sps. auto.
Defined.

(** C8, the claim as stated, fails: on [1--2] the number rule matches the
    [1] alone, and [lex] yields that number token and then raises at
    position 1, where no rule matches. *)
Lemma number_rule_no_embedded_minus :
  option_map group0 (re_match number_re "1--2") = Some "1"
  /\ lex "1--2" =
       Some ([mkToken "number" "1" 0],
             Raised (ValueError "Unrecognized token starting at position 1")).
Proof. split; vm_compute; reflexivity. Qed.

(** C8, amended: the number rule permits any number of dots within one
    match, and a minus sign as the first character only. A text of digits
    and dots, with or without a minus sign before it, is matched whole, up
    to the first character that is neither a digit nor a dot; no match of
    the rule has a minus sign after its first character; and [1..2] lexes
    as one number token whose text is [1..2]. *)
Theorem number_rule_dots_and_leading_minus :
  (forall body rest : string,
      0 < len body ->
      all_chars digit_or_dot body = true ->
      head_in digit_or_dot rest = false ->
      (exists m, re_match number_re (body ++ rest) = Some m
                 /\ group0 m = body /\ group1 m = Some body)
      /\ (exists m, re_match number_re ("-" ++ body ++ rest) = Some m
                    /\ group0 m = "-" ++ body /\ group1 m = Some ("-" ++ body)))
  /\ (forall (text : string) (m : Match),
         re_match number_re text = Some m ->
         occurs "-"%char (slice_from 1 (group0 m)) = false)
  /\ lex "1..2" = Some ([mkToken "number" "1..2" 0], StopIteration).
Proof.
  split; [|split; [exact number_re_no_inner_minus | vm_compute; reflexivity]].
  intros body rest Hne Hbody Hrest. split; eexists; (split; [|split]).
  - now apply number_re_match_plain.
  - unfold group0. cbn [stop subject]. apply slice_to_app.
  - unfold group1, slice. cbn [span1 subject slice_from].
    rewrite Nat.sub_0_r. f_equal. apply slice_to_app.
  - now apply number_re_match_minus.
  - unfold group0. cbn [stop subject]. change (S (len body)) with (len ("-" ++ body)).
    rewrite <- app_assoc_s. apply slice_to_app.
  - unfold group1, slice. cbn [span1 subject slice_from].
    rewrite Nat.sub_0_r. f_equal. change (S (len body)) with (len ("-" ++ body)).
    rewrite <- app_assoc_s. apply slice_to_app.
Qed.

Lemma number_rule_dots_and_leading_minus_witness :
  (exists m, re_match number_re ("1..2" ++ "]") = Some m
             /\ group0 m = "1..2" /\ group1 m = Some "1..2")
  /\ (exists m, re_match number_re ("-" ++ "1..2" ++ "]") = Some m
                /\ group0 m = "-" ++ "1..2" /\ group1 m = Some ("-" ++ "1..2")).
Proof.
  apply (proj1 number_rule_dots_and_leading_minus "1..2" "]");
    [simpl; lia | reflexivity | reflexivity].
Defined.

(** C9, the claim as stated, fails: the text of [doc_two_lines] starts with
    a quote that three more quotes follow, and the match of the string rule
    there is the first string alone, not the text up to the last quote,
    which is the whole document; [lex] yields two string tokens for it. *)
Lemma string_rule_stops_at_newline :
  count_char dquote (slice_from 1 doc_two_lines) = 3
  /\ upto_last dquote doc_two_lines = doc_two_lines
  /\ option_map group0 (re_match string_re doc_two_lines) = Some (quoted "a")
  /\ quoted "a" <> upto_last dquote doc_two_lines
  /\ lex doc_two_lines =
       Some ([mkToken "string" "a" 0; mkToken "string" "b" 4], StopIteration).
Proof.
  repeat split; try (vm_compute; reflexivity).
  vm_compute. discriminate.
Qed.

(** C9, amended: the string rule is greedy within a line. On a text that
    starts with a quote, it matches from that quote to the last quote
    before the first newline of the text (the dot of the pattern matches no
    newline), whatever quotes lie in between, and group 1 is the text
    between the two; so a document with two quoted strings on one line
    yields one string token that spans both. *)
Theorem string_rule_greedy_on_line :
  (forall body tail : string,
      occurs newline body = false ->
      occurs dquote (first_line tail) = false ->
      exists m,
        re_match string_re (quoted body ++ tail) = Some m
        /\ first_rule rules (quoted body ++ tail) = Some (Some "string", m)
        /\ group0 m = quoted body
        /\ group1 m = Some body)
  /\ lex doc_two_strings =
       Some ([mkToken "string" ("a" ++ String dquote " " ++ String dquote "b") 0],
             StopIteration).
Proof.
  split; [|vm_compute; reflexivity].
  intros body tail Hbody Htail.
  pose proof (string_re_match body tail Hbody Htail) as Hm.
  eexists. split; [exact Hm|]. split; [|split].
  - cbn [first_rule rules snd fst]. now rewrite Hm.
  - unfold group0. cbn [stop subject]. rewrite <- len_quoted. apply slice_to_app.
  - unfold group1. cbn [span1 subject]. rewrite quoted_app.
    unfold slice. cbn [slice_from]. f_equal.
    replace (S (len body) - 1) with (len body) by lia. apply slice_to_app.
Qed.

Lemma string_rule_greedy_on_line_witness :
  exists m,
    re_match string_re doc_two_strings = Some m
    /\ first_rule rules doc_two_strings = Some (Some "string", m)
    /\ group0 m = doc_two_strings
    /\ group1 m = Some ("a" ++ String dquote " " ++ String dquote "b").
Proof.
  exact (proj1 string_rule_greedy_on_line
               ("a" ++ String dquote " " ++ String dquote "b") ""
               eq_refl eq_refl).
Defined.

(** C10: [lex] terminates on every string. No rule of the table, the rule
    of the white space included, matches an empty prefix; so an iteration
    that does not raise moves the cursor forward, never past the end of the
    source; and the loop ends, with the same result for any number of
    iterations allowed beyond the length of the source. *)
Theorem lex_terminates (src : string) :
  (forall rule text m,
      In rule rules -> re_match (snd rule) text = Some m ->
      0 < len (group0 m) <= len text)
  /\ (forall p r0 m,
         p < len src ->
         first_rule rules (slice_from p src) = Some (r0, m) ->
         p < p + len (group0 m) <= len src)
  /\ (exists toks e,
         lex src = Some (toks, e) /\
         forall fuel, len src < fuel -> lex_loop fuel src 0 = Some (toks, e)).
Proof.
  split; [|split].
  - intros rule text m Hin Hm.
    pose proof rules_shape as Hshape. rewrite forallb_forall in Hshape.
    specialize (Hshape _ Hin). apply andb_true_iff in Hshape as [Hnull _].
    apply negb_true_iff in Hnull.
    destruct (re_match_sound _ _ _ Hm) as (_ & Hn & Hz & _).
    rewrite (len_group0 _ _ _ Hm). auto.
  - intros p r0 m Hlt E.
    destruct (first_rule_progress _ _ _ E) as (_ & -> & Hz & _).
    rewrite len_slice_from in Hz. lia.
  - destruct (lex_loop_enough_fuel src (S (len src)) 0) as ((toks & e) & Hrun); [lia|].
    exists toks, e. split; [exact Hrun|].
    intros fuel Hfuel. rewrite lex_loop_any_fuel; [exact Hrun | lia].
Qed.

Lemma lex_terminates_witness :
  exists toks e,
    lex "[1, --2]" = Some (toks, e) /\ lex_loop 20 "[1, --2]" 0 = Some (toks, e).
Proof.
  destruct (proj2 (proj2 (lex_terminates "[1, --2]"))) as (toks & e & Hlex & Hfuel).
  exists toks, e. split; [exact Hlex | apply Hfuel; simpl; lia].
Defined.

(* ------------------------------------------------------------------ *)
(** ** Documents with balanced brackets *)

Lemma app_nil_r_s (a : string) : a ++ "" = a.
Proof. induction a as [|x a IH]; simpl; [reflexivity | now rewrite IH]. Qed.

Lemma pairs_brackets (o c : ascii) :
  pairs o c = true ->
  opens o = true /\ opens c = false /\ closes_char c = true.
Proof.
  unfold pairs, opens, closes_char. intros H.
  apply orb_true_iff in H as [H|H]; apply andb_true_iff in H as [Ho Hc];
    apply Ascii.eqb_eq in Ho, Hc; subst o c; repeat split.
Qed.

(** The stack check goes through a balanced text with its stack
    unchanged. *)
Lemma balanced_from_text (s : string) :
  balanced_text s ->
  forall (stack : list ascii) (rest : string),
    balanced_from stack (s ++ rest) = balanced_from stack rest.
Proof.
  induction 1 as [|c s Ho Hc Hs IH|o c inner s Hp Hin IHin Hs IHs];
    intros stack rest.
  - reflexivity.
  - cbn [append balanced_from]. now rewrite Ho, Hc.
  - destruct (pairs_brackets _ _ Hp) as (Ho & Hco & Hc).
    cbn [append balanced_from]. rewrite Ho, app_assoc_s, IHin.
    cbn [append balanced_from]. rewrite Hco, Hc, Hp. cbn [andb]. apply IHs.
Qed.

Lemma balanced_text_app (a b : string) :
  balanced_text a -> balanced_text b -> balanced_text (a ++ b).
Proof.
  induction 1 as [|c s Ho Hc Hs IH|o c inner s Hp Hin IHin Hs IHs]; intros Hb.
  - exact Hb.
  - cbn [append]. apply balanced_text_other; auto.
  - cbn [append]. rewrite app_assoc_s. cbn [append].
    apply balanced_text_nest; auto.
Qed.

Lemma closes_text_prefix (stack : list ascii) (pre s : string) :
  balanced_text pre -> closes_text stack s -> closes_text stack (pre ++ s).
Proof.
  intros Hpre. destruct stack as [|o stack]; cbn [closes_text].
  - now apply balanced_text_app.
  - intros (inner & c & rest & -> & Hin & Hp & Hrest).
    exists (pre ++ inner), c, rest. rewrite app_assoc_s.
    repeat split; auto. now apply balanced_text_app.
Qed.

(** What the stack check accepts closes its stack. *)
Lemma balanced_from_closes (s : string) :
  forall stack : list ascii,
    balanced_from stack s = true -> closes_text stack s.
Proof.
  induction s as [|c s IH]; intros stack; cbn [balanced_from].
  - destruct stack; [intros _; constructor | discriminate].
  - destruct (opens c) eqn:Ho.
    + intros H. apply IH in H. cbn [closes_text] in H.
      destruct H as (inner & d & rest & -> & Hin & Hp & Hrest).
      change (String c (inner ++ String d rest))
        with (String c (inner ++ String d "" ++ rest)).
      replace (String c (inner ++ String d "" ++ rest))
        with (String c (inner ++ String d "") ++ rest)
        by (cbn [append]; now rewrite app_assoc_s).
      apply closes_text_prefix; [|exact Hrest].
      apply balanced_text_nest; auto. constructor.
    + destruct (closes_char c) eqn:Hc.
      * destruct stack as [|o stack]; [discriminate|].
        intros H. apply andb_true_iff in H as [Hp H].
        apply IH in H. cbn [closes_text].
        exists "", c, s. repeat split; auto. constructor.
      * intros H. apply IH in H.
        change (String c s) with (String c "" ++ s).
        apply closes_text_prefix; [|exact H].
        apply balanced_text_other; auto. constructor.
Qed.

(** The stack check decides the balanced documents. *)
Lemma brackets_balanced_iff (doc : string) :
  brackets_balanced doc = true <-> balanced_text doc.
Proof.
  unfold brackets_balanced. split.
  - apply (balanced_from_closes doc []).
  - intros H. rewrite <- (app_nil_r_s doc). now rewrite balanced_from_text.
Qed.

(* ================================================================== *)
(** * The validator: theorems *)

Lemma lex_doc_numbers : lex doc_numbers = Some (toks_numbers, StopIteration).
Proof. vm_compute; reflexivity. Qed.

Lemma balanced_toks_numbers : balanced toks_numbers.
Proof. apply spec_validate_iff_balanced. reflexivity. Qed.

(** C1: on the document [{], whose bracket is never closed, [validate]
    returns [None], where its docstring has it raise
    "No closing token for ('open_curly', '{', 0)"; likewise on [[]. The
    validator of the specification reports the outermost opener there. *)
Theorem validate_unclosed_returns :
  validate "{" = Returns tt
  /\ validate "{" <> Raises (ValueError "No closing token for ('open_curly', '{', 0)")
  /\ validate "[" = Returns tt
  /\ validate "[" <> Raises (ValueError "No closing token for ('open_square', '[', 0)")
  /\ Spec.validate_doc "{"
     = Some (Spec.NoClosingTokenFor (mkToken "open_curly" "{" 0))
  /\ Spec.validate_doc "[{"
     = Some (Spec.NoClosingTokenFor (mkToken "open_square" "[" 0)).
Proof.
  split; [reflexivity|]. split; [discriminate|].
  split; [reflexivity|]. split; [discriminate|].
  split; vm_compute; reflexivity.
Qed.

(** C2: on the document [["numbers":{1,2,3]}], whose [close_square] at
    position 17 meets an open curly bracket, [validate] returns [None],
    where its docstring has it raise
    "No opening token for ('close_square', ']', 17)"; likewise on []] and
    [[}]. The validator of the specification reports that closer. *)
Theorem validate_orphan_closer_returns :
  validate doc_numbers_bad = Returns tt
  /\ validate doc_numbers_bad
     <> Raises (ValueError "No opening token for ('close_square', ']', 17)")
  /\ validate "]" = Returns tt
  /\ validate "[}" = Returns tt
  /\ Spec.validate_doc doc_numbers_bad
     = Some (Spec.NoOpeningTokenFor (mkToken "close_square" "]" 17))
  /\ Spec.validate_doc "]"
     = Some (Spec.NoOpeningTokenFor (mkToken "close_square" "]" 0))
  /\ Spec.validate_doc "[}"
     = Some (Spec.NoOpeningTokenFor (mkToken "close_curly" "}" 1)).
Proof.
  split; [reflexivity|]. split; [discriminate|].
  split; [reflexivity|]. split; [reflexivity|].
  split; [|split]; vm_compute; reflexivity.
Qed.

(** C3: for every document, [validate] returns [None] and raises nothing:
    its body is its docstring alone. So the unbalanced documents [{], []]
    and [[}] are accepted as well, and so is a document that [lex] would
    reject; the script, which hands its input to [validate], ends normally
    on every input. *)
Theorem validate_returns_none (doc : string) :
  validate doc = Returns tt
  /\ main doc = Returns tt
  /\ validate "{" = Returns tt
  /\ validate "]" = Returns tt
  /\ validate "[}" = Returns tt
  /\ validate "[1, --2]" = Returns tt.
Proof. unfold main, validate. repeat split. Qed.

(** C4: for every document whose square and curly brackets are balanced
    and correctly nested, [validate] returns [None] and raises nothing.
    The balance is read off the characters of the document
    ([balanced_text], decided by [brackets_balanced]), so it holds of the
    six documents of the docstring, the empty one, [{}], [[]], [[{}]],
    [[1,2,3]] and [{"numbers":[1,2,3]}], and of [["a", {"b": 1}]] as well.
    The same holds when the balance is read off the tokens of [lex], in
    agreement with the validator of the specification, which accepts such
    a document; and [validate], having no code, returns for every document
    whatever. *)
Theorem validate_accepts_balanced :
  (forall doc : string, balanced_text doc -> validate doc = Returns tt)
  /\ (forall doc : string,
         brackets_balanced doc = true -> validate doc = Returns tt)
  /\ (forall (doc : string) (toks : list Token),
         lex doc = Some (toks, StopIteration) ->
         balanced toks ->
         validate doc = Returns tt /\ Spec.validate_doc doc = Some Spec.Valid)
  /\ (forall doc : string, validate doc = Returns tt)
  /\ Forall (fun doc => brackets_balanced doc = true /\ validate doc = Returns tt)
            [ ""; "{}"; "[]"; "[{}]"; "[1,2,3]"; doc_numbers; doc_two_keys ].
Proof.
  split; [reflexivity|]. split; [reflexivity|]. split; [|split; [reflexivity|]].
  - intros doc toks Hlex Hbal. split; [reflexivity|].
    unfold Spec.validate_doc. rewrite Hlex. f_equal.
    now apply spec_validate_balanced.
  - repeat constructor.
Qed.

Lemma validate_accepts_balanced_witness :
  (balanced_text doc_two_keys
   /\ brackets_balanced doc_two_keys = true
   /\ validate doc_two_keys = Returns tt)
  /\ (lex doc_numbers = Some (toks_numbers, StopIteration)
      /\ balanced toks_numbers
      /\ validate doc_numbers = Returns tt
      /\ Spec.validate_doc doc_numbers = Some Spec.Valid).
Proof.
  assert (Hb : brackets_balanced doc_two_keys = true) by reflexivity.
  assert (Ht : balanced_text doc_two_keys) by (apply brackets_balanced_iff; exact Hb).
  exact (conj
           (conj Ht
                 (conj Hb (proj1 validate_accepts_balanced doc_two_keys Ht)))
           (conj lex_doc_numbers
                 (conj balanced_toks_numbers
                       (proj1 (proj2 (proj2 validate_accepts_balanced))
                              doc_numbers toks_numbers
                              lex_doc_numbers balanced_toks_numbers)))).
Defined.

(* ================================================================== *)
(** * The examples of the docstrings *)

(** The doctests of the methods of [Token]. *)
Theorem token_methods_doctests :
  is_opening (mkToken "open_square" "[" 0) = true
  /\ is_opening (mkToken "close_square" "]" 0) = false
  /\ is_opening (mkToken "number" "1" 0) = false
  /\ is_closing (mkToken "open_square" "[" 0) = false
  /\ is_closing (mkToken "close_square" "]" 0) = true
  /\ is_closing (mkToken "number" "1" 0) = false
  /\ bracket_type (mkToken "open_square" "[" 0) = Returns (Some "square")
  /\ bracket_type (mkToken "close_curly" "]" 0) = Returns (Some "curly")
  /\ bracket_type (mkToken "number" "1" 0) = Returns None.
Proof. repeat split. Qed.

(** The doctests of [lex] on a single token: what [next(lex(src))] gives is
    the first token of the run. *)
Theorem lex_single_token_doctests :
  lex "true" = Some ([mkToken "boolean" "true" 0], StopIteration)
  /\ lex "false" = Some ([mkToken "boolean" "false" 0], StopIteration)
  /\ lex "5" = Some ([mkToken "number" "5" 0], StopIteration)
  /\ lex "3.14" = Some ([mkToken "number" "3.14" 0], StopIteration)
  /\ lex "-1.61" = Some ([mkToken "number" "-1.61" 0], StopIteration)
  /\ lex (quoted "Hello") = Some ([mkToken "string" "Hello" 0], StopIteration)
  /\ lex "{" = Some ([mkToken "open_curly" "{" 0], StopIteration)
  /\ lex "" = Some ([], StopIteration).
Proof. repeat split. Qed.

(** Every token that [lex] yields from a state it reaches carries the
    group 1 of the match of its rule as its text. *)
Theorem lex_token_is_group1 (src : string) (p : nat) (n : string) (m : Match) :
  first_rule rules (slice_from p src) = Some (Some n, m) ->
  exists v, group1 m = Some v /\ yielded (Some n) m p = [mkToken n v p].
Proof.
  intros H. destruct (token_of_group1 _ _ _ p H) as (v & Hv & Htok).
  exists v. split; [exact Hv|]. cbn [yielded]. now rewrite Htok.
Qed.

Lemma lex_token_is_group1_witness :
  exists v, group1 (mkMatch (quoted "2" ++ "]") 3 (Some (1, 2))) = Some v
            /\ yielded (Some "string") (mkMatch (quoted "2" ++ "]") 3 (Some (1, 2))) 4
               = [mkToken "string" v 4].
Proof.
  exact (lex_token_is_group1 doc_list 4 "string"
           (mkMatch (quoted "2" ++ "]") 3 (Some (1, 2))) eq_refl).
Defined.

(* ================================================================== *)
(** * How a run of [lex] ends *)

(** The end of a run of the loop from a state that [lex] reaches: it
    either stops with the cursor at the end of the source, or raises at a
    cursor inside the source where no rule matches. *)
Lemma lex_loop_end (src : string) :
  forall (fuel p : nat) (toks0 toks : list Token) (e : ending),
    reaches src p toks0 ->
    p <= len src ->
    lex_loop fuel src p = Some (toks, e) ->
    exists q,
      reaches src q (toks0 ++ toks)%list /\
      match e with
      | StopIteration => q = len src
      | Raised x =>
          q < len src /\ first_rule rules (slice_from q src) = None /\
          x = unrecognized q
      end.
Proof.
  induction fuel as [|fuel IH]; intros p toks0 toks e Hreach Hle;
    cbn [lex_loop]; [discriminate|].
  destruct (p <? len src)%nat eqn:Hlt.
  - apply Nat.ltb_lt in Hlt.
    destruct (first_rule rules (slice_from p src)) as [[r0 m]|] eqn:E.
    + destruct (lex_loop fuel src (p + len (group0 m))) as [[toks' e']|] eqn:Hrun;
        [|discriminate].
      intros [= <- <-].
      destruct (first_rule_progress _ _ _ E) as (_ & Hlen & Hz & _).
      rewrite len_slice_from in Hz.
      destruct (IH _ _ _ _ (reaches_next _ _ _ _ _ Hreach Hlt E) ltac:(lia) Hrun)
        as (q & Hq & Hend).
      exists q. now rewrite app_assoc.
    + intros [= <- <-]. exists p. rewrite app_nil_r. auto.
  - intros [= <- <-]. apply Nat.ltb_ge in Hlt. exists p. rewrite app_nil_r.
    split; [exact Hreach | lia].
Qed.

(** When [lex] raises, what it raises is the ValueError of the
    unrecognized token, for a cursor that the loop has reached, inside the
    source, where no rule matches; the tokens yielded are those of the
    matches made before that cursor. *)
Theorem lex_raises_only_unrecognized (src : string) (toks : list Token) (x : exn) :
  lex src = Some (toks, Raised x) ->
  exists q,
    reaches src q toks /\ q < len src /\
    first_rule rules (slice_from q src) = None /\
    x = ValueError ("Unrecognized token starting at position " ++ str_of_nat q).
Proof.
  intros H.
  destruct (lex_loop_end src _ 0 [] toks _ (reaches_start src) ltac:(lia) H)
    as (q & Hq & Hend).
  exists q. tauto.
Qed.

Lemma lex_raises_only_unrecognized_witness :
  exists q,
    reaches "1--2" q [mkToken "number" "1" 0] /\ q < len "1--2" /\
    first_rule rules (slice_from q "1--2") = None /\
    ValueError "Unrecognized token starting at position 1"
    = ValueError ("Unrecognized token starting at position " ++ str_of_nat q).
Proof.
  exact (lex_raises_only_unrecognized "1--2" [mkToken "number" "1" 0]
           (ValueError "Unrecognized token starting at position 1") eq_refl).
Defined.

(** When [lex] ends normally, its loop has reached the end of the source,
    match after match. *)
Theorem lex_stops_at_end (src : string) (toks : list Token) :
  lex src = Some (toks, StopIteration) ->
  reaches src (len src) toks.
Proof.
  intros H.
  destruct (lex_loop_end src _ 0 [] toks _ (reaches_start src) ltac:(lia) H)
    as (q & Hq & ->).
  exact Hq.
Qed.

Lemma lex_stops_at_end_witness : reaches "true" (len "true") [mkToken "boolean" "true" 0].
Proof. exact (lex_stops_at_end "true" [mkToken "boolean" "true" 0] eq_refl). Defined.

(* ================================================================== *)
(** * More on the lexer: what the tokens look like *)

Lemma slice_from_app (a b : string) : slice_from (len a) (a ++ b) = b.
Proof. induction a as [|c a IH]; simpl; [reflexivity | exact IH]. Qed.

Lemma slice_to_next (n : nat) (s : string) (d : ascii) (t : string) :
  slice_from n s = String d t ->
  slice_to (S n) s = slice_to n s ++ String d "".
Proof.
  revert s; induction n as [|n IH]; intros [|c s] H; try discriminate H.
  - injection H as -> ->. reflexivity.
  - change (String c (slice_to (S n) s) = String c (slice_to n s ++ String d "")).
    f_equal. now apply IH.
Qed.

Lemma no_newline_all_dot (s : string) :
  all_chars dot s = true -> occurs newline s = false.
Proof.
  induction s as [|c s IH]; simpl; [reflexivity|].
  intros H. apply andb_true_iff in H as [Hc Hs].
  unfold dot in Hc. apply negb_true_iff in Hc. now rewrite Hc, IH.
Qed.

(** A pattern that is one group: group 1 is the whole match. *)
Lemma group_is_whole (r : regex) (text : string) (m : Match) :
  re_match (Group r) text = Some m -> group1 m = Some (group0 m).
Proof.
  unfold re_match. cbn [exec]. intros H.
  destruct (exec_sound _ _ _ _ _ _ H) as (n & g' & _ & _ & _ & Hk).
  injection Hk as <-. unfold group1, group0, slice. cbn [span1 stop subject slice_from].
  now rewrite Nat.sub_0_r.
Qed.

(** The match of a rule of one character. *)
Lemma one_char_match (c : ascii) (text : string) (m : Match) :
  re_match (Group (One (lit c))) text = Some m -> group0 m = String c "".
Proof.
  unfold re_match. cbn [exec]. destruct text as [|x s]; [discriminate|].
  unfold lit. destruct (Ascii.eqb x c) eqn:E; [|discriminate].
  apply Ascii.eqb_eq in E. subst x. now intros [= <-].
Qed.

(** The match of the rule of the booleans. *)
Lemma boolean_match (text : string) (m : Match) :
  re_match (Group (Alt (word "true") (word "false"))) text = Some m ->
  group0 m = "true" \/ group0 m = "false".
Proof.
  unfold re_match. cbn [exec word]. unfold lit.
  repeat match goal with
         | |- context [match ?s with EmptyString => _ | String _ _ => _ end] =>
             is_var s; destruct s as [|? ?]
         | |- context [Ascii.eqb ?x ?c] =>
             let E := fresh "E" in
             destruct (Ascii.eqb x c) eqn:E;
             [apply Ascii.eqb_eq in E; subst x|]
         end;
    try discriminate; intros [= <-]; auto.
Qed.

(** The match of the rule of the numbers. *)
Lemma number_match (text : string) (m : Match) :
  re_match number_re text = Some m -> number_text (group0 m) = true.
Proof.
  rewrite number_re_unfold.
  destruct (exec (One (lit "-"%char)) 0 text None _) as [x|] eqn:E1.
  - intros [= ->]. cbn [exec] in E1.
    destruct text as [|c s]; [discriminate|].
    unfold lit in E1. destruct (Ascii.eqb c "-"%char) eqn:Hc; [|discriminate].
    apply plus_number in E1 as (n & Hall & Hn & ->).
    unfold group0. cbn [stop subject Nat.add slice_to number_text]. rewrite Hc, Hall.
    destruct n as [|n]; [lia|]. destruct s as [|d s]; [simpl in Hn; lia|]. reflexivity.
  - intros H. apply plus_number in H as (n & Hall & Hn & ->).
    unfold group0. cbn [stop subject Nat.add].
    destruct n as [|n]; [lia|]. destruct text as [|c s]; [simpl in Hn; lia|].
    cbn [slice_to number_text] in *.
    pose proof Hall as Hc. cbn [all_chars] in Hc. apply andb_true_iff in Hc as [Hc _].
    now rewrite (digit_or_dot_not_minus _ Hc).
Qed.

(** The match of the rule of the white space. *)
Lemma space_match (text : string) (m : Match) :
  re_match (Group (Plus space)) text = Some m ->
  all_chars space (group0 m) = true.
Proof.
  unfold re_match. cbn [exec]. destruct text as [|c s]; [discriminate|].
  destruct (space c) eqn:Hc; [|discriminate].
  intros H. destruct (star_sound _ _ _ _ _ H) as (n & Hn & Hall & Hk).
  injection Hk as <-. unfold group0. cbn [stop subject Nat.add slice_to all_chars].
  now rewrite Hc, Hall.
Qed.

(** The match of the rule of the strings: two quotes around a text without
    a newline, which is group 1. *)
Lemma string_match (text : string) (m : Match) :
  re_match string_re text = Some m ->
  exists body, group0 m = quoted body /\ group1 m = Some body /\
               occurs newline body = false.
Proof.
  destruct text as [|c s]; [discriminate|]. rewrite string_re_unfold.
  unfold lit at 1. destruct (Ascii.eqb c dquote) eqn:Hc; [|discriminate].
  apply Ascii.eqb_eq in Hc. subst c.
  intros H. destruct (star_sound _ _ _ _ _ H) as (n & Hn & Hall & Hk).
  unfold close_quote in Hk. cbn [exec] in Hk.
  destruct (slice_from n s) as [|d t] eqn:Hrest; [discriminate|].
  unfold lit in Hk. destruct (Ascii.eqb d dquote) eqn:Hd; [|discriminate].
  apply Ascii.eqb_eq in Hd. subst d. injection Hk as <-.
  exists (slice_to n s). split; [|split].
  - unfold group0, quoted. cbn [stop subject Nat.add slice_to]. f_equal.
    exact (slice_to_next _ _ _ _ Hrest).
  - unfold group1, slice. cbn [span1 subject slice_from]. f_equal. f_equal. lia.
  - now apply no_newline_all_dot.
Qed.

(** What the rule that wins has matched: for a named rule, a text that
    fits the name, which is group 1 and, but for the two quotes of a
    string, the whole match; for the rule without a name, white space. *)
Lemma first_rule_kinds (text : string) (r0 : option string) (m : Match) :
  first_rule rules text = Some (r0, m) ->
  match r0 with
  | Some n =>
      exists v, group1 m = Some v /\ kind_ok n v = true /\
                group0 m = (if n =? "string" then quoted v else v)
  | None => all_chars space (group0 m) = true
  end.
Proof.
  cbn [first_rule rules fst snd].
  destruct (re_match string_re text) as [m0|] eqn:E0.
  { intros [= <- <-]. destruct (string_match _ _ E0) as (body & H0 & H1 & Hnl).
    exists body. cbn. rewrite Hnl. auto. }
  destruct (re_match (Group (Alt (word "true") (word "false"))) text) as [m1|] eqn:E1.
  { intros [= <- <-]. exists (group0 m1). split; [now apply (group_is_whole _ _ _ E1)|].
    split; [|reflexivity].
    destruct (boolean_match _ _ E1) as [->| ->]; reflexivity. }
  repeat match goal with
         | |- match re_match (Group (One (lit ?c))) text with _ => _ end = _ -> _ =>
             let E := fresh "E" in
             destruct (re_match (Group (One (lit c))) text) as [?m|] eqn:E;
             [ intros [= <- <-]; eexists; split; [now apply (group_is_whole _ _ _ E)|];
               rewrite (one_char_match _ _ _ E); split; reflexivity |]
         end.
  destruct (re_match number_re text) as [mn|] eqn:En.
  { intros [= <- <-]. exists (group0 mn). split; [now apply (group_is_whole _ _ _ En)|].
    split; [exact (number_match _ _ En) | reflexivity]. }
  destruct (re_match (Group (Plus space)) text) as [ms|] eqn:Es; [|discriminate].
  intros [= <- <-]. exact (space_match _ _ Es).
Qed.

(** Every token that the loop yields has a name and a text that fit, and
    stands for the text of the source at its position. *)
Lemma lex_loop_tokens (src : string) :
  forall (fuel p : nat) (toks : list Token) (e : ending),
    lex_loop fuel src p = Some (toks, e) ->
    Forall (fun t =>
              kind_ok (name t) (value t) = true /\
              slice (position t) (position t + len (covered t)) src = covered t)
           toks.
Proof.
  induction fuel as [|fuel IH]; intros p toks e; cbn [lex_loop]; [discriminate|].
  destruct (p <? len src)%nat; [|intros [= <- <-]; constructor].
  destruct (first_rule rules (slice_from p src)) as [[r0 m]|] eqn:E;
    [|intros [= <- <-]; constructor].
  destruct (lex_loop fuel src (p + len (group0 m))) as [[toks' e']|] eqn:Hrun;
    [|discriminate].
  intros [= <- <-]. specialize (IH _ _ _ Hrun).
  destruct r0 as [n|]; [|exact IH].
  cbn [yielded app]. constructor; [|exact IH].
  destruct (first_rule_kinds _ _ _ E) as (v & Hv & Hok & Hg0).
  destruct (first_rule_progress _ _ _ E) as (Hsub & Hlen & _).
  unfold token_of. rewrite Hv. unfold covered. cbn [name value position].
  split; [exact Hok|]. rewrite <- Hg0. unfold slice.
  replace (p + len (group0 m) - p) with (len (group0 m)) by lia.
  unfold group0 at 2. now rewrite Hlen, Hsub.
Qed.

(** The cases of [kind_ok]. *)
Lemma kind_ok_cases (n v : string) :
  kind_ok n v = true ->
  (n = "string" /\ occurs newline v = false)
  \/ (n = "boolean" /\ (v = "true" \/ v = "false"))
  \/ (n = "number" /\ number_text v = true)
  \/ In (n, v) [ ("assignment", ":"); ("open_square", "["); ("open_curly", "{");
                 ("close_square", "]"); ("close_curly", "}"); ("separator", ",") ].
Proof.
  unfold kind_ok.
  repeat match goal with
         | |- (if (n =? ?k) then _ else _) = true -> _ =>
             let E := fresh "E" in
             destruct (n =? k) eqn:E; [apply String.eqb_eq in E; subst n|]
         end; try discriminate; intros H.
  - left. split; [reflexivity|]. now apply negb_true_iff.
  - right; left. split; [reflexivity|].
    apply orb_true_iff in H as [H|H]; apply String.eqb_eq in H; auto.
  - apply String.eqb_eq in H. subst v. do 3 right. simpl. auto.
  - apply String.eqb_eq in H. subst v. do 3 right. simpl. auto.
  - apply String.eqb_eq in H. subst v. do 3 right. simpl. auto.
  - apply String.eqb_eq in H. subst v. do 3 right. simpl. auto.
  - apply String.eqb_eq in H. subst v. do 3 right. simpl. auto 7.
  - apply String.eqb_eq in H. subst v. do 3 right. simpl. auto 7.
  - right; right; left. auto.
Qed.

(** On a token whose name and text fit, the methods of [Token] read the
    brackets off the text that the token stands for. *)
Lemma kind_ok_brackets (t : Token) :
  kind_ok (name t) (value t) = true ->
  (is_opening t = true <-> covered t = "[" \/ covered t = "{")
  /\ (is_closing t = true <-> covered t = "]" \/ covered t = "}")
  /\ (bracket_type t = Returns (Some "square") <-> covered t = "[" \/ covered t = "]")
  /\ (bracket_type t = Returns (Some "curly") <-> covered t = "{" \/ covered t = "}")
  /\ bracket_type t <> Raises IndexError.
Proof.
  destruct t as [n v p]. cbn [name value]. intros H.
  destruct (kind_ok_cases _ _ H) as [(-> & Hv)|[(-> & [->| ->])|[(-> & Hv)|Hin]]].
  - unfold covered, quoted. cbn.
    repeat split; try discriminate; intros [E|E]; discriminate E.
  - cbn. repeat split; try discriminate; intros [E|E]; discriminate E.
  - cbn. repeat split; try discriminate; intros [E|E]; discriminate E.
  - unfold covered. cbn.
    repeat split; try discriminate; intros [E|E]; subst v; discriminate Hv.
  - simpl in Hin.
    repeat match type of Hin with
           | _ \/ _ => destruct Hin as [Hin|Hin]
           end;
      try contradiction; injection Hin as <- <-; cbn;
      repeat split; try discriminate; auto; intros [E|E]; discriminate E.
Qed.

(* ================================================================== *)
(** * More on the lexer: cursors and white space *)

Lemma str_of_nat_inj (a b : nat) : str_of_nat a = str_of_nat b -> a = b.
Proof.
  unfold str_of_nat. intros H. apply DecimalNat.Unsigned.to_uint_inj.
  apply (f_equal NilEmpty.uint_of_string) in H.
  rewrite !NilEmpty.usu in H. now injection H.
Qed.

(** The error of [lex] tells its position. *)
Lemma unrecognized_inj (p q : nat) : unrecognized p = unrecognized q -> p = q.
Proof.
  unfold unrecognized. intros [= H].
  now apply str_of_nat_inj.
Qed.

Lemma shift_0 (t : Token) : shift 0 t = t.
Proof. now destruct t. Qed.

Lemma map_shift_0 (toks : list Token) : map (shift 0) toks = toks.
Proof. induction toks as [|t toks IH]; simpl; [reflexivity|]. now rewrite shift_0, IH. Qed.

Lemma map_shift_shift (a b : nat) (toks : list Token) :
  map (shift a) (map (shift b) toks) = map (shift (a + b)) toks.
Proof.
  rewrite map_map. apply map_ext. intros [n v p]. unfold shift. cbn.
  now rewrite Nat.add_assoc.
Qed.

Lemma yielded_shift (r0 : option string) (m : Match) (n p : nat) :
  yielded r0 m (n + p) = map (shift n) (yielded r0 m p).
Proof. now destruct r0. Qed.

(** The loop does not look behind its cursor: with a text put before the
    source, it yields the same tokens further right and ends the same
    way. *)
Lemma lex_loop_shift (pre src : string) :
  forall (fuel p : nat) (toks : list Token) (e : ending),
    lex_loop fuel src p = Some (toks, e) ->
    exists e',
      lex_loop fuel (pre ++ src) (len pre + p)
      = Some (map (shift (len pre)) toks, e') /\
      ((e = StopIteration /\ e' = StopIteration) \/
       exists q, e = Raised (unrecognized q) /\
                 e' = Raised (unrecognized (len pre + q))).
Proof.
  induction fuel as [|fuel IH]; intros p toks e; cbn [lex_loop]; [discriminate|].
  rewrite len_app, slice_from_add, slice_from_app.
  replace (len pre + p <? len pre + len src)%nat with (p <? len src)%nat
    by (destruct (p <? len src)%nat eqn:E1, (len pre + p <? len pre + len src)%nat eqn:E2;
        try reflexivity;
        [apply Nat.ltb_lt in E1; apply Nat.ltb_ge in E2
        |apply Nat.ltb_ge in E1; apply Nat.ltb_lt in E2]; lia).
  destruct (p <? len src)%nat.
  - destruct (first_rule rules (slice_from p src)) as [[r0 m]|].
    + destruct (lex_loop fuel src (p + len (group0 m))) as [[toks' e0]|] eqn:Hrun;
        [|discriminate].
      intros [= <- <-]. destruct (IH _ _ _ Hrun) as (e' & Hrun' & Hend).
      exists e'. rewrite <- Nat.add_assoc, Hrun', yielded_shift, map_app. auto.
    + intros [= <- <-]. eexists. split; [reflexivity|]. right. eauto.
  - intros [= <- <-]. eexists. split; [reflexivity|]. auto.
Qed.

Lemma reaches_le (src : string) (q : nat) (toks : list Token) :
  reaches src q toks -> q <= len src.
Proof.
  induction 1 as [|p toks r0 m Hreach IH Hlt E]; [lia|].
  destruct (first_rule_progress _ _ _ E) as (_ & -> & Hz & _).
  rewrite len_slice_from in Hz. lia.
Qed.

(** From a cursor that it reaches, [lex] goes on as it would on the rest
    of the source alone, the positions apart. *)
Lemma lex_resumes_gen (src : string) (q : nat) (toks toks' : list Token) (e : ending) :
  reaches src q toks ->
  lex (slice_from q src) = Some (toks', e) ->
  exists e',
    lex src = Some ((toks ++ map (shift q) toks')%list, e') /\
    ((e = StopIteration /\ e' = StopIteration) \/
     exists r, e = Raised (unrecognized r) /\ e' = Raised (unrecognized (q + r))).
Proof.
  intros Hreach Hlex. pose proof (reaches_le _ _ _ Hreach) as Hle.
  destruct (lex_loop_shift (slice_to q src) _ _ _ _ _ Hlex) as (e' & Hrun & Hend).
  assert (Hq : len (slice_to q src) = q) by (rewrite len_slice_to; lia).
  rewrite Hq in Hrun, Hend. rewrite slice_to_from, Nat.add_0_r in Hrun.
  rewrite lex_loop_any_fuel in Hrun by (rewrite len_slice_from; lia).
  exists e'. split; [|exact Hend]. exact (reaches_lex _ _ _ Hreach _ _ Hrun).
Qed.

(** A white space character starts no token. *)
Lemma space_starts_nothing (c : ascii) :
  space c = true ->
  forallb (fun x => negb (Ascii.eqb c x))
          [dquote; "t"; "f"; ":"; "["; "{"; "]"; "}"; ","; "-"]%char = true
  /\ digit_or_dot c = false.
Proof.
  destruct c as [[] [] [] [] [] [] [] []]; intros H; try discriminate H;
    split; reflexivity.
Qed.

(** On white space, then a text that does not start with white space, the
    rule of the white space wins and takes all of the white space. *)
Lemma first_rule_space (w rest : string) :
  0 < len w ->
  all_chars space w = true ->
  head_in space rest = false ->
  exists m, first_rule rules (w ++ rest) = Some (None, m) /\ len (group0 m) = len w.
Proof.
  intros Hw Hall Hrest. destruct w as [|c w]; [simpl in Hw; lia|].
  cbn [all_chars] in Hall. apply andb_true_iff in Hall as [Hc Hall].
  destruct (space_starts_nothing _ Hc) as (Hno & Hdod).
  cbn [forallb] in Hno.
  repeat (apply andb_true_iff in Hno as [?H Hno]).
  repeat match goal with
         | H : negb _ = true |- _ => apply negb_true_iff in H
         end.
  exists (mkMatch (String c w ++ rest) (S (len w)) (Some (0, S (len w)))).
  split.
  - cbn [first_rule rules fst snd append].
    unfold re_match, string_re, number_re. cbn [exec word]. unfold lit.
    repeat match goal with
           | H : Ascii.eqb c _ = false |- _ => rewrite H; clear H
           end.
    rewrite Hdod, Hc. cbn iota.
    rewrite (star_skip space w rest 1 _
               (mkMatch (String c (w ++ rest)) (S (len w)) (Some (0, S (len w))))
               Hall); [reflexivity|].
    destruct rest as [|d rest]; cbn [star]; [reflexivity|].
    cbn [head_in] in Hrest. now rewrite Hrest.
  - unfold group0. cbn [stop subject].
    change (S (len w)) with (len (String c w)). now rewrite slice_to_app.
Qed.

Lemma leading_space_split (s : string) :
  exists rest, s = leading_space s ++ rest /\
               all_chars space (leading_space s) = true /\
               head_in space rest = false.
Proof.
  induction s as [|c s (rest & Hs & Hall & Hrest)]; cbn [leading_space].
  - exists "". auto.
  - destruct (space c) eqn:Hc.
    + exists rest. cbn [append all_chars]. rewrite Hc, <- Hs. auto.
    + exists (String c s). cbn [head_in]. auto.
Qed.

Lemma all_chars_app (p : ascii -> bool) (a b : string) :
  all_chars p a = true -> all_chars p b = true -> all_chars p (a ++ b) = true.
Proof.
  induction a as [|c a IH]; simpl; [auto|].
  intros Ha Hb. apply andb_true_iff in Ha as [-> Ha]. simpl. auto.
Qed.

(** White space before a text that does not start with white space: the
    same tokens, further right. *)
Lemma lex_skip_space (w rest : string) (toks : list Token) (e : ending) :
  all_chars space w = true ->
  head_in space rest = false ->
  lex rest = Some (toks, e) ->
  exists e',
    lex (w ++ rest) = Some (map (shift (len w)) toks, e') /\
    ((e = StopIteration /\ e' = StopIteration) \/
     exists r, e = Raised (unrecognized r) /\ e' = Raised (unrecognized (len w + r))).
Proof.
  intros Hall Hrest Hlex. destruct w as [|c w].
  - exists e. cbn [append len String.length]. rewrite map_shift_0.
    split; [exact Hlex|]. destruct e as [|x]; [auto|].
    right. unfold lex in Hlex.
    destruct (lex_loop_end rest _ 0 [] toks _ (reaches_start rest) ltac:(lia) Hlex)
      as (q & _ & _ & _ & ->). eauto.
  - destruct (first_rule_space (String c w) rest ltac:(simpl; lia) Hall Hrest)
      as (m & Hm & Hlen).
    assert (Hreach : reaches (String c w ++ rest) (len (String c w)) []).
    { rewrite <- Hlen.
      apply (reaches_next _ 0 [] None m (reaches_start _)); [|exact Hm].
      rewrite len_app. simpl. lia. }
    apply (lex_resumes_gen _ _ _ toks e Hreach). now rewrite slice_from_app.
Qed.

(** The loop yields at most one token for each character that is left. *)
Lemma lex_loop_count (src : string) :
  forall (fuel p : nat) (toks : list Token) (e : ending),
    lex_loop fuel src p = Some (toks, e) ->
    List.length toks <= len src - p.
Proof.
  induction fuel as [|fuel IH]; intros p toks e; cbn [lex_loop]; [discriminate|].
  destruct (p <? len src)%nat eqn:Hlt; [|intros [= <- <-]; simpl; lia].
  apply Nat.ltb_lt in Hlt.
  destruct (first_rule rules (slice_from p src)) as [[r0 m]|] eqn:E;
    [|intros [= <- <-]; simpl; lia].
  destruct (lex_loop fuel src (p + len (group0 m))) as [[toks' e']|] eqn:Hrun;
    [|discriminate].
  intros [= <- <-]. specialize (IH _ _ _ Hrun).
  destruct (first_rule_progress _ _ _ E) as (_ & Hlen & Hz & _).
  rewrite length_app. destruct r0; simpl; lia.
Qed.

(** White space before a source, whatever the source starts with. *)
Lemma lex_leading_space_gen (ws src : string) (toks : list Token) (e : ending) :
  all_chars space ws = true ->
  lex src = Some (toks, e) ->
  exists e',
    lex (ws ++ src) = Some (map (shift (len ws)) toks, e') /\
    ((e = StopIteration /\ e' = StopIteration) \/
     exists r, e = Raised (unrecognized r) /\ e' = Raised (unrecognized (len ws + r))).
Proof.
  intros Hws Hlex.
  destruct (leading_space_split src) as (rest & Hsrc & Hsp & Hrest).
  set (sp := leading_space src) in *.
  destruct (lex_loop_enough_fuel rest (S (len rest)) 0) as ((tr & er) & Hr); [lia|].
  fold (lex rest) in Hr.
  destruct (lex_skip_space sp rest tr er Hsp Hrest Hr) as (e1 & H1 & Hend1).
  destruct (lex_skip_space (ws ++ sp) rest tr er (all_chars_app _ _ _ Hws Hsp) Hrest Hr)
    as (e2 & H2 & Hend2).
  rewrite <- Hsrc in H1. rewrite Hlex in H1. injection H1 as -> ->.
  rewrite app_assoc_s, <- Hsrc, len_app in H2.
  exists e2. rewrite map_shift_shift. split; [exact H2|].
  destruct Hend1 as [(-> & ->)|(r1 & -> & ->)].
  - left. destruct Hend2 as [(_ & ->)|(r2 & Hr2 & _)]; [auto | discriminate].
  - right. exists (len sp + r1). split; [reflexivity|].
    destruct Hend2 as [(Hr2 & _)|(r2 & Hr2 & ->)]; [discriminate|].
    injection Hr2 as Hr2. apply str_of_nat_inj in Hr2. subst r2.
    now rewrite len_app, Nat.add_assoc.
Qed.

(* ================================================================== *)
(** * More on the lexer: theorems *)

(** Every token that [lex] yields, whether the run ends normally or not,
    has one of the nine names of the rule table and a text that fits it:
    a string has no newline, a boolean is [true] or [false], a number is
    digits and dots after at most one minus sign, and each punctuation
    token has its one character. *)
Theorem lex_tokens_well_formed (src : string) (toks : list Token) (e : ending) :
  lex src = Some (toks, e) ->
  Forall (fun t => kind_ok (name t) (value t) = true) toks.
Proof.
  intros H. eapply Forall_impl; [|exact (lex_loop_tokens _ _ _ _ _ H)].
  simpl. tauto.
Qed.

Lemma lex_tokens_well_formed_witness :
  Forall (fun t => kind_ok (name t) (value t) = true)
         [ mkToken "open_square" "[" 0; mkToken "number" "1" 1;
           mkToken "separator" "," 2 ].
Proof. exact (lex_tokens_well_formed "[1, --2]" _ _ eq_refl). Defined.

(** Every token that [lex] yields stands at its position in the source:
    the text from [position] on is the text of the token, between two
    double quotes when the token is a string. *)
Theorem lex_tokens_located (src : string) (toks : list Token) (e : ending) :
  lex src = Some (toks, e) ->
  Forall (fun t => slice (position t) (position t + len (covered t)) src = covered t)
         toks.
Proof.
  intros H. eapply Forall_impl; [|exact (lex_loop_tokens _ _ _ _ _ H)].
  simpl. tauto.
Qed.

Lemma lex_tokens_located_witness :
  Forall (fun t => slice (position t) (position t + len (covered t)) doc_list = covered t)
         [ mkToken "open_square" "[" 0; mkToken "number" "1" 1;
           mkToken "separator" "," 2; mkToken "string" "2" 4;
           mkToken "close_square" "]" 7 ].
Proof. exact (lex_tokens_located doc_list _ _ eq_refl). Defined.

(** On the tokens of [lex], the methods of [Token] tell the brackets of
    the source: a token is opening exactly when it stands for [[] or [{],
    closing exactly when it stands for []] or [}]; [bracket_type] is
    [square] exactly for the square brackets and [curly] exactly for the
    curly ones, and it never raises. *)
Theorem lex_brackets_typed (src : string) (toks : list Token) (e : ending) :
  lex src = Some (toks, e) ->
  Forall (fun t =>
            (is_opening t = true <-> covered t = "[" \/ covered t = "{")
            /\ (is_closing t = true <-> covered t = "]" \/ covered t = "}")
            /\ (bracket_type t = Returns (Some "square")
                <-> covered t = "[" \/ covered t = "]")
            /\ (bracket_type t = Returns (Some "curly")
                <-> covered t = "{" \/ covered t = "}")
            /\ bracket_type t <> Raises IndexError)
         toks.
Proof.
  intros H. eapply Forall_impl; [|exact (lex_loop_tokens _ _ _ _ _ H)].
  intros t [Hok _]. now apply kind_ok_brackets.
Qed.

Lemma lex_brackets_typed_witness :
  Forall (fun t =>
            (is_opening t = true <-> covered t = "[" \/ covered t = "{")
            /\ (is_closing t = true <-> covered t = "]" \/ covered t = "}")
            /\ (bracket_type t = Returns (Some "square")
                <-> covered t = "[" \/ covered t = "]")
            /\ (bracket_type t = Returns (Some "curly")
                <-> covered t = "{" \/ covered t = "}")
            /\ bracket_type t <> Raises IndexError)
         toks_numbers.
Proof. exact (lex_brackets_typed doc_numbers _ _ lex_doc_numbers). Defined.

(** [lex] yields at most as many tokens as the source has characters. *)
Theorem lex_token_count (src : string) (toks : list Token) (e : ending) :
  lex src = Some (toks, e) -> List.length toks <= len src.
Proof.
  intros H. pose proof (lex_loop_count _ _ _ _ _ H). lia.
Qed.

Lemma lex_token_count_witness : List.length toks_numbers <= len doc_numbers.
Proof. exact (lex_token_count doc_numbers _ _ lex_doc_numbers). Defined.

(** [lex] does not look behind its cursor. From a cursor [q] that its loop
    reaches, it goes on as it would on the rest of the source alone: the
    tokens that follow are those of [lex] on the text from [q] on, [q]
    characters further right, and the run ends the same way, an error
    telling its position in the whole source. *)
Theorem lex_resumes (src : string) (q : nat) (toks toks' : list Token) :
  reaches src q toks ->
  (lex (slice_from q src) = Some (toks', StopIteration) ->
   lex src = Some ((toks ++ map (shift q) toks')%list, StopIteration))
  /\ (forall r,
         lex (slice_from q src) = Some (toks', Raised (unrecognized r)) ->
         lex src = Some ((toks ++ map (shift q) toks')%list,
                         Raised (unrecognized (q + r)))).
Proof.
  intros Hreach. split.
  - intros H. destruct (lex_resumes_gen _ _ _ _ _ Hreach H)
      as (e' & Hlex & [(_ & ->)|(r & Hr & _)]); [exact Hlex | discriminate].
  - intros r H. destruct (lex_resumes_gen _ _ _ _ _ Hreach H)
      as (e' & Hlex & [(Hr & _)|(r' & Hr & ->)]); [discriminate|].
    injection Hr as Hr. apply str_of_nat_inj in Hr. now subst r'.
Qed.

Lemma lex_resumes_witness :
  reaches "[1, --2]" 2 [mkToken "open_square" "[" 0; mkToken "number" "1" 1]
  /\ lex ", --2]" = Some ([mkToken "separator" "," 0], Raised (unrecognized 2))
  /\ lex "[1, --2]" =
       Some ([ mkToken "open_square" "[" 0; mkToken "number" "1" 1;
               mkToken "separator" "," 2 ], Raised (unrecognized 4)).
Proof.
  assert (Hreach : reaches "[1, --2]" 2
                     [mkToken "open_square" "[" 0; mkToken "number" "1" 1]).
  { pose proof (reaches_start "[1, --2]") as H.
    do 2 (eapply reaches_next in H; [| simpl; lia | vm_compute; reflexivity];
          vm_compute in H).
    exact H. }
  assert (Hrest : lex (slice_from 2 "[1, --2]")
                  = Some ([mkToken "separator" "," 0], Raised (unrecognized 2)))
    by (vm_compute; reflexivity).
  split; [exact Hreach|]. split; [exact Hrest|].
  exact (proj2 (lex_resumes "[1, --2]" 2 _ _ Hreach) 2 Hrest).
Defined.

(** White space before a source only moves the tokens: [lex] yields the
    tokens of the source, each as many characters further right as there is
    white space added, and ends the same way, an error telling its
    position in the longer text. *)
Theorem lex_leading_space (ws src : string) (toks : list Token) :
  all_chars space ws = true ->
  (lex src = Some (toks, StopIteration) ->
   lex (ws ++ src) = Some (map (shift (len ws)) toks, StopIteration))
  /\ (forall r,
         lex src = Some (toks, Raised (unrecognized r)) ->
         lex (ws ++ src) = Some (map (shift (len ws)) toks,
                                 Raised (unrecognized (len ws + r)))).
Proof.
  intros Hws. split.
  - intros H. destruct (lex_leading_space_gen _ _ _ _ Hws H)
      as (e' & Hlex & [(_ & ->)|(r & Hr & _)]); [exact Hlex | discriminate].
  - intros r H. destruct (lex_leading_space_gen _ _ _ _ Hws H)
      as (e' & Hlex & [(Hr & _)|(r' & Hr & ->)]); [discriminate|].
    injection Hr as Hr. apply str_of_nat_inj in Hr. now subst r'.
Qed.

Lemma lex_leading_space_witness :
  lex ("  " ++ " 1--2") =
    Some ([mkToken "number" "1" 3], Raised (unrecognized 4)).
Proof.
  exact (proj2 (lex_leading_space "  " " 1--2" [mkToken "number" "1" 1] eq_refl)
               2 eq_refl).
Defined.

(** A source of white space only, the empty source included, yields no
    token and ends normally. *)
Theorem lex_only_space (ws : string) :
  all_chars space ws = true -> lex ws = Some ([], StopIteration).
Proof.
  intros Hws.
  destruct (lex_leading_space_gen ws "" [] StopIteration Hws eq_refl)
    as (e' & Hlex & [(_ & ->)|(r & Hr & _)]); [|discriminate].
  now rewrite app_nil_r_s in Hlex.
Qed.

Lemma lex_only_space_witness :
  lex (String tab (String newline " ")) = Some ([], StopIteration).
Proof. exact (lex_only_space (String tab (String newline " ")) eq_refl). Defined.

(* ================================================================== *)
(** * The methods of [Token] *)

Lemma split_no_sep (sep : ascii) (s : string) :
  occurs sep s = false -> split sep s = [s].
Proof.
  induction s as [|c s IH]; cbn [occurs split]; [reflexivity|].
  intros H. apply orb_false_iff in H as [Hc Hs]. now rewrite Hc, (IH Hs).
Qed.

Lemma split_app (sep : ascii) (a b : string) :
  occurs sep a = false ->
  split sep (a ++ String sep b) = a :: split sep b.
Proof.
  induction a as [|c a IH]; cbn [occurs split append].
  - intros _. now rewrite Ascii.eqb_refl.
  - intros H. apply orb_false_iff in H as [Hc Ha]. now rewrite Hc, (IH Ha).
Qed.

(** No token is both opening and closing, and [bracket_type] returns
    [None] exactly for the tokens that are neither. *)
Theorem token_bracket_classes (t : Token) :
  is_opening t && is_closing t = false
  /\ (bracket_type t = Returns None <->
      is_opening t = false /\ is_closing t = false).
Proof.
  split.
  - destruct (is_closing t) eqn:Hc; [|apply andb_false_r].
    now rewrite (closing_not_opening _ Hc).
  - unfold bracket_type.
    destruct (is_closing t), (is_opening t); cbn [orb];
      try (destruct (nth_error (split "_" (name t)) 1));
      split; try discriminate; try tauto; intros [? ?]; discriminate.
Qed.

(** [bracket_type] on a bracket token: the family is the part of the name
    between its first underscore and the next one, or the end; a name
    without an underscore makes it raise [IndexError]. *)
Theorem bracket_type_family (t : Token) :
  is_opening t || is_closing t = true ->
  (occurs "_" (name t) = false -> bracket_type t = Raises IndexError)
  /\ (forall kind family more : string,
         name t = kind ++ "_" ++ family ++ more ->
         occurs "_" kind = false ->
         occurs "_" family = false ->
         more = "" \/ head_in (lit "_") more = true ->
         bracket_type t = Returns (Some family)).
Proof.
  intros Hb. unfold bracket_type. rewrite orb_comm, Hb. split.
  - intros H. now rewrite (split_no_sep _ _ H).
  - intros kind family more -> Hkind Hfam Hmore.
    change (kind ++ "_" ++ family ++ more)
      with (kind ++ String "_" (family ++ more)).
    rewrite (split_app _ _ _ Hkind). cbn [nth_error].
    destruct Hmore as [->|Hmore].
    + now rewrite app_nil_r_s, (split_no_sep _ _ Hfam).
    + destruct more as [|c more]; [discriminate|].
      cbn [head_in] in Hmore. unfold lit in Hmore.
      apply Ascii.eqb_eq in Hmore. subst c.
      now rewrite (split_app _ _ _ Hfam).
Qed.

Lemma bracket_type_family_witness :
  bracket_type (mkToken "closed" "]" 0) = Raises IndexError
  /\ bracket_type (mkToken "open_square_bracket" "[" 0) = Returns (Some "square").
Proof.
  split.
  - exact (proj1 (bracket_type_family (mkToken "closed" "]" 0) eq_refl) eq_refl).
  - exact (proj2 (bracket_type_family (mkToken "open_square_bracket" "[" 0) eq_refl)
                 "open" "square" "_bracket" eq_refl eq_refl eq_refl
                 (or_intror eq_refl)).
Defined.

(* ================================================================== *)
(** * [Token.__repr__] *)

Lemma app_inv_head_s (a b c : string) : a ++ b = a ++ c -> b = c.
Proof. induction a as [|x a IH]; simpl; [auto | intros [= H]; auto]. Qed.

Lemma app_inv_tail_s (a b c : string) : a ++ c = b ++ c -> a = b.
Proof.
  revert b; induction a as [|x a IH]; intros [|y b] H; cbn [append] in H.
  - reflexivity.
  - apply (f_equal len) in H. cbn [len String.length] in H.
    fold (len (b ++ c)) in H. fold (len c) in H. rewrite len_app in H. lia.
  - apply (f_equal len) in H. cbn [len String.length] in H.
    fold (len (a ++ c)) in H. fold (len c) in H. rewrite len_app in H. lia.
  - injection H as -> H. now rewrite (IH _ H).
Qed.

(** What [escape] writes can be read back, whatever follows. *)
Lemma unescape_escape (q c : ascii) (x : string) :
  q = squote \/ q = dquote ->
  unescape q (escape q c ++ x) = Some (c, x).
Proof.
  intros [-> | ->]; destruct c as [[] [] [] [] [] [] [] []]; reflexivity.
Qed.

Lemma unescape_quote (q : ascii) (x : string) : unescape q (String q x) = None.
Proof. unfold unescape. now rewrite Ascii.eqb_refl. Qed.

(** Two escaped texts that agree up to a closing quote are the same. *)
Lemma escape_all_inj (q : ascii) :
  q = squote \/ q = dquote ->
  forall (s1 s2 x y : string),
    escape_all q s1 ++ String q x = escape_all q s2 ++ String q y ->
    s1 = s2 /\ x = y.
Proof.
  intros Hq. induction s1 as [|c1 s1 IH]; intros [|c2 s2] x y;
    cbn [escape_all append]; rewrite ?app_assoc_s; intros H.
  - now injection H.
  - apply (f_equal (unescape q)) in H.
    rewrite unescape_quote, unescape_escape in H by exact Hq. discriminate.
  - apply (f_equal (unescape q)) in H.
    rewrite unescape_quote, unescape_escape in H by exact Hq. discriminate.
  - apply (f_equal (unescape q)) in H.
    rewrite !unescape_escape in H by exact Hq. injection H as -> H.
    destruct (IH _ _ _ H) as [-> ->]. auto.
Qed.

Lemma quote_of_cases (s : string) : quote_of s = squote \/ quote_of s = dquote.
Proof. unfold quote_of. destruct (_ && _); auto. Qed.

(** The [repr] of a string ends where its closing quote is: two of them
    that start the same text are the [repr] of the same string. *)
Lemma repr_str_prefix (s1 s2 x y : string) :
  repr_str s1 ++ x = repr_str s2 ++ y -> s1 = s2 /\ x = y.
Proof.
  unfold repr_str. cbn [append]. intros [= Hq H]. rewrite <- Hq in H.
  rewrite !app_assoc_s in H. cbn [append] in H.
  exact (escape_all_inj _ (quote_of_cases s1) _ _ _ _ H).
Qed.

Lemma escape_plain (c : ascii) : plain c = true -> escape squote c = String c "".
Proof. destruct c as [[] [] [] [] [] [] [] []]; intros H; try discriminate H; reflexivity. Qed.

Lemma plain_not_squote (c : ascii) : plain c = true -> Ascii.eqb c squote = false.
Proof.
  unfold plain. intros H. apply andb_true_iff in H as [H _].
  apply andb_true_iff in H as [_ H]. now apply negb_true_iff.
Qed.

Lemma repr_str_plain (s : string) :
  all_chars plain s = true -> repr_str s = String squote (s ++ String squote "").
Proof.
  intros H.
  assert (Hq : quote_of s = squote).
  { unfold quote_of.
    now rewrite (all_chars_not_occurs plain squote s plain_not_squote H). }
  unfold repr_str. rewrite Hq. f_equal. f_equal.
  induction s as [|c s IH]; cbn [escape_all all_chars] in *; [reflexivity|].
  apply andb_true_iff in H as [Hc Hs].
  rewrite (escape_plain _ Hc), IH; [reflexivity | exact Hs |].
  unfold quote_of.
  now rewrite (all_chars_not_occurs plain squote s plain_not_squote Hs).
Qed.

(** The [repr] of a token whose name and text are made of printable
    characters other than the single quote and the backslash shows them as
    they are: an opening bracket, the name, the text and the position, the
    first two between single quotes, separated by a comma and a space. *)
Theorem repr_plain (t : Token) :
  all_chars plain (name t) = true ->
  all_chars plain (value t) = true ->
  __repr__ t =
    "('" ++ name t ++ "', '" ++ value t ++ "', " ++ str_of_nat (position t) ++ ")".
Proof.
  intros Hn Hv. unfold __repr__.
  rewrite (repr_str_plain _ Hn), (repr_str_plain _ Hv).
  cbn [append]. rewrite !app_assoc_s. reflexivity.
Qed.

Lemma repr_plain_witness :
  __repr__ (mkToken "open_square" "[" 0) = "('open_square', '[', 0)".
Proof. exact (repr_plain (mkToken "open_square" "[" 0) eq_refl eq_refl). Defined.

(** The [repr] of a token tells the token: two tokens with the same [repr]
    have the same name, the same text and the same position. *)
Theorem repr_injective (t1 t2 : Token) :
  __repr__ t1 = __repr__ t2 -> t1 = t2.
Proof.
  destruct t1 as [n1 v1 p1], t2 as [n2 v2 p2]. unfold __repr__.
  cbn [name value position]. intros H.
  apply app_inv_head_s in H. apply repr_str_prefix in H as [-> H].
  apply app_inv_head_s in H. apply repr_str_prefix in H as [-> H].
  apply app_inv_head_s in H. apply app_inv_tail_s in H.
  apply str_of_nat_inj in H. now subst.
Qed.

Lemma repr_injective_witness :
  mkToken "string" ("it's" ++ String newline "") 3
  = mkToken "string" ("it's" ++ String newline "") (1 + 2).
Proof.
  exact (repr_injective (mkToken "string" ("it's" ++ String newline "") 3)
                        (mkToken "string" ("it's" ++ String newline "") (1 + 2))
                        eq_refl).
Defined.
